(** * Firebase.getAsArray: the synchronized array and its event handlers

    A shallow embedding of [firebase-as-array.js] (v0.0.1) together with the
    part of [test/lib/MockFirebase.js] the array calls into.  JavaScript
    objects live in a store addressed by locations, so that "the same object
    instance" is a statement about locations; the two parallel arrays
    [this.ids] and [this.list] are lists updated with the semantics of
    [Array.prototype.splice], [unshift] and indexed assignment. *)

From Stdlib Require Import ZArith Lia.
From stdpp Require Import gmap strings list fin_maps functions pretty.

(** ** JavaScript values, the object store and arrays *)

Module Js.

Definition loc := positive.

(** Numbers are only stored and compared in this program, never computed
    with, so integers stand for them. *)
Inductive value :=
  | undefined
  | null
  | boolean (b : bool)
  | number (n : Z)
  | str (s : string)
  | object (l : loc).

#[global] Instance value_eq_dec : EqDecision value.
Proof. solve_decision. Defined.

(** The own enumerable properties of every object, by location.  A location
    that was never written holds the object without properties. *)
Abbreviation heap := (loc -> gmap string value).

(** [if (x)], [!x] and [x && y] on values. *)
Definition truthy (v : value) : bool :=
  match v with
  | undefined | null => false
  | boolean b => b
  | number n => negb (n =? 0)%Z
  | str s => negb (bool_decide (s = ""))
  | object _ => true
  end.

(** [Object.prototype.hasOwnProperty] applied to an object and a key. *)
Definition hasOwnProperty (h : heap) (l : loc) (key : string) : bool :=
  bool_decide (is_Some (h l !! key)).

(** [o[key]] *)
Definition get (h : heap) (l : loc) (key : string) : value :=
  default undefined (h l !! key).

(** [o[key] = v] *)
Definition put (h : heap) (l : loc) (key : string) (v : value) : heap :=
  <[l := <[key := v]> (h l)]> h.

(** [delete o[key]] *)
Definition delete_property (h : heap) (l : loc) (key : string) : heap :=
  <[l := delete key (h l)]> h.

(** The keys a [for (key in o)] loop visits: the object's own properties
    (the records and snapshot values of this program inherit no enumerable
    property). *)
Definition own_keys (h : heap) (l : loc) : list string :=
  (map_to_list (h l)).*1.

(** [a.splice(start, deleteCount, ...items)]: the array left behind.  A
    negative [start] counts from the end, and both arguments are clamped to
    the array. *)
Definition splice {A : Type} (start deleteCount : Z) (items a : list A)
  : list A :=
  let len := Z.of_nat (length a) in
  let actualStart :=
    if (start <? 0)%Z then Z.max (len + start) 0 else Z.min start len in
  let actualDeleteCount :=
    Z.min (Z.max deleteCount 0) (len - actualStart) in
  take (Z.to_nat actualStart) a ++ items
    ++ drop (Z.to_nat (actualStart + actualDeleteCount)) a.

(** [a.unshift(x)] *)
Definition unshift {A : Type} (x : A) (a : list A) : list A := x :: a.

(** [a[i]]: [undefined] outside the array. *)
Definition at_index (a : list value) (i : Z) : value :=
  if (i <? 0)%Z then undefined else default undefined (a !! Z.to_nat i).

(** [a[i] = v] for [0 <= i]: inside the array the element is replaced; past
    its end the array grows and the skipped positions read [undefined]. *)
Definition assign_index (a : list value) (i : Z) (v : value) : list value :=
  let n := Z.to_nat i in
  if decide (n < length a) then <[n := v]> a
  else a ++ replicate (n - length a) undefined ++ [v].

(** [a.indexOf(x)] on an array of strings: the first position holding [x],
    or [-1]. *)
Fixpoint indexOf_from (a : list string) (x : string) (i : Z) : Z :=
  match a with
  | [] => (-1)%Z
  | y :: a' => if decide (y = x) then i else indexOf_from a' x (i + 1)%Z
  end.

Definition indexOf (a : list string) (x : string) : Z := indexOf_from a x 0.

(** [ids[pos]] *)
Definition key_at (a : list string) (i : Z) : value :=
  if (i <? 0)%Z then undefined
  else from_option str undefined (a !! Z.to_nat i).

(** What a call throws. *)
Inductive exn :=
  | Error (message : string)
  | TypeError (message : string).

Inductive result (A : Type) :=
  | Return (a : A)
  | Throw (e : exn).
Arguments Return {A} a.
Arguments Throw {A} e.

(** Code that reads and writes a state [S] and may throw.  A throw keeps
    the writes made before it. *)
Definition M (S A : Type) := S -> result A * S.

Definition ret {S A} (a : A) : M S A := fun s => (Return a, s).
Definition throw {S A} (e : exn) : M S A := fun s => (Throw e, s).
Definition bind {S A B} (m : M S A) (k : A -> M S B) : M S B :=
  fun s =>
    match m s with
    | (Return a, s') => k a s'
    | (Throw e, s') => (Throw e, s')
    end.
Definition modify {S} (f : S -> S) : M S unit := fun s => (Return tt, f s).
Definition gets {S A} (f : S -> A) : M S A := fun s => (Return (f s), s).

End Js.

Notation "x <- m ;; k" := (Js.bind m (fun x => k))
  (at level 100, m at next level, right associativity).

(** ** The closures the array hands to the remote source *)

(** The first argument of [Function.prototype.bind]. *)
Inductive this_arg := this_array | this_null.

(** [this._handleErrors.bind(thisArg, key)] *)
Record completion := Bind_handleErrors {
  bound_this : this_arg;
  bound_key : string
}.

(** [this._serverAdd.bind(this)] and its three siblings. *)
Inductive listener :=
  | on_serverAdd
  | on_serverRemove
  | on_serverChange
  | on_serverMove.

#[global] Instance this_arg_eq_dec : EqDecision this_arg.
Proof. solve_decision. Defined.
#[global] Instance completion_eq_dec : EqDecision completion.
Proof. solve_decision. Defined.
#[global] Instance listener_eq_dec : EqDecision listener.
Proof. solve_decision. Defined.

(** ** The remote ordered source, as [MockFirebase] implements it

    Only what the array calls: [child], [push], [set], [update],
    [setPriority], [remove] and [on].  The reference is modelled by what the
    array can tell of it: the listeners it holds, the key counter, and the
    writes it has accepted.  The mock's data tree and its queue of deferred
    work are not modelled; what they make the mock do to the array is an
    input further down.  The listener calls the mock makes while a method of
    the array is still running are the [during] events of a [local_call];
    the ones it makes on [flush] are [remote_event]s; and the error a queued
    write completes with, which the mock takes from [failNext], is an input
    of [report].  A child reference is identified by the path it was obtained
    with; keys hold no [/]. *)

Module MockFirebase.
Import Js.

(** A write the reference has accepted, with the completion callback the
    caller passed.  [set] and [update] queue theirs with [_defer] until
    [flush]; [setPriority] has no callback parameter; the mock's [remove]
    declares no parameter either, the entry keeps what the caller passed. *)
Inductive write :=
  | set_op (child : string) (data : value) (callback : option completion)
  | update_op (child : string) (changes : value)
      (callback : option completion)
  | setPriority_op (child : string) (newPriority : value)
  | remove_op (child : string) (callback : option completion).

#[global] Instance write_eq_dec : EqDecision write.
Proof. solve_decision. Defined.

Record t := Build {
  currentPath : string;
  PUSH_COUNTER : nat;
  _events : gmap string (list listener);
  (** accepted writes, oldest first *)
  writes : list write
}.

(** [new Firebase(path, data)]: no listener, nothing written. *)
Definition create (path : string) (counter : nat) : t :=
  {| currentPath := path;
     PUSH_COUNTER := counter;
     _events := list_to_map
       [("value", []); ("child_added", []); ("child_removed", []);
        ("child_changed", []); ("child_moved", [])];
     writes := [] |}.

Definition accept (w : write) : M t unit :=
  modify (fun fb =>
    {| currentPath := currentPath fb;
       PUSH_COUNTER := PUSH_COUNTER fb;
       _events := _events fb;
       writes := writes fb ++ [w] |}).

(** [child(childPath)] throws on a falsy path. *)
Definition child (childPath : string) : M t string :=
  fun fb =>
    if negb (truthy (str childPath))
    then (Throw (Error ("bad child path " +:+ currentPath fb)), fb)
    else (Return childPath, fb).

(** [set(data, callback)] queues its work with [_defer]: the change of the
    tree, the listener calls that follow from it, and the call of [callback]
    happen on [flush], which [_defer] itself runs before [set] returns when
    [autoFlush] is on.  Here the write is recorded; the listener calls are
    events of the step that makes the call, or later ones. *)
Definition set (ref : string) (data : value) (callback : option completion)
  : M t unit :=
  accept (set_op ref data callback).

(** [_.isObject] *)
Definition isObject (x : value) : bool :=
  match x with object _ => true | _ => false end.

(** [update(changes, callback)] throws for changes that are no object, and
    otherwise queues its work as [set] does. *)
Definition update (ref : string) (changes : value)
    (callback : option completion) : M t unit :=
  if negb (isObject changes)
  then throw (Error "First argument must be an object when calling $update")
  else accept (update_op ref changes callback).

(** [setPriority(newPriority)] defers nothing: [_priChanged] has the parent
    [_resort], which calls the [child_moved] listeners before [setPriority]
    returns.  Here the write is recorded; the listener calls are
    [triggered_by_setPriority] below, events of the step that makes the
    call. *)
Definition setPriority (ref : string) (newPriority : value) : M t unit :=
  accept (setPriority_op ref newPriority).

(** [remove()] defers nothing either, and never calls the function it is
    passed: [_dataChanged(null)] has the parent delete the child and call the
    [child_removed] listeners before [remove] returns.  Here the write is
    recorded; the listener calls are [triggered_by_remove] below, events of
    the step that makes the call. *)
Definition remove (ref : string) (callback : option completion) : M t unit :=
  accept (remove_op ref callback).

(** [push(data)]: ['mock' + (++PUSH_COUNTER)] names the new child. *)
Definition push (data : value) : M t string :=
  _ <- modify (fun fb =>
         {| currentPath := currentPath fb;
            PUSH_COUNTER := S (PUSH_COUNTER fb);
            _events := _events fb;
            writes := writes fb |}) ;;
  id <- gets (fun fb => "mock" +:+ pretty (PUSH_COUNTER fb)) ;;
  child <- child id ;;
  _ <- (if truthy data then set child data None else ret tt) ;;
  ret child.

(** [on(event, callback)]: [this._events[event].push(callback)].  For
    [child_added] the mock also queues, with [_defer], calls of [callback]
    alone for the children it holds.  Those calls are added events applied
    to the array, on [flush] or, when [autoFlush] is on, before [on]
    returns; here [on] registers the listener and the calls are events of a
    run. *)
Definition on (event : string) (callback : listener) : M t unit :=
  fun fb =>
    match _events fb !! event with
    | Some fns =>
        (Return tt,
         {| currentPath := currentPath fb;
            PUSH_COUNTER := PUSH_COUNTER fb;
            _events := <[event := fns ++ [callback]]> (_events fb);
            writes := writes fb |})
    | None =>
        (Throw (TypeError "Cannot read property 'push' of undefined"), fb)
    end.

(** The callback a write carries, if any. *)
Definition callback_of (w : write) : option completion :=
  match w with
  | set_op _ _ cb | update_op _ _ cb | remove_op _ cb => cb
  | setPriority_op _ _ => None
  end.

Definition child_of (w : write) : string :=
  match w with
  | set_op c _ _ | update_op c _ _ | setPriority_op c _ | remove_op c _ => c
  end.

End MockFirebase.

(** ** [ReadOnlySynchronizedArray] *)

Import Js.

(** One invocation of [eventCallback(eventType, recordId, data)]. *)
Record call := Call {
  eventType : string;
  recordId : value;
  data : value
}.

#[global] Instance call_eq_dec : EqDecision call.
Proof. solve_decision. Defined.

(** The fields of the instance.  [list_] is [this.list]; [eventCallback]
    tells whether a callback was supplied, its invocations are the [call]s
    the methods below produce. *)
Record ReadOnlySynchronizedArray := Build_array {
  ids : list string;
  list_ : list value;
  ref : MockFirebase.t;
  eventCallback : bool
}.

Definition with_arrays (self : ReadOnlySynchronizedArray)
    (ids' : list string) (list' : list value) : ReadOnlySynchronizedArray :=
  {| ids := ids'; list_ := list';
     ref := ref self; eventCallback := eventCallback self |}.

Definition with_ref (self : ReadOnlySynchronizedArray)
    (ref' : MockFirebase.t) : ReadOnlySynchronizedArray :=
  {| ids := ids self; list_ := list_ self;
     ref := ref'; eventCallback := eventCallback self |}.

(** A snapshot: [snap.name()] and [snap.val()]. *)
Record snapshot := Snap {
  name : string;
  val : value
}.

Definition isObject (x : value) : bool :=
  match x with
  | object _ => true
  | _ => false
  end.

(** [o.hasOwnProperty(key)], called as a method of the object: the property
    [hasOwnProperty] is looked up on the object itself first.  An own field of
    that name holds data, never a function, so it shadows the inherited
    method and the call throws. *)
Definition call_hasOwnProperty (o : loc) (key : string) : M heap bool :=
  fun h =>
    match h o !! "hasOwnProperty" with
    | Some _ => (Throw (TypeError "hasOwnProperty is not a function"), h)
    | None => (Return (hasOwnProperty h o key), h)
    end.

(** The body of a loop run for each key of a list, in order, until it
    throws. *)
Fixpoint for_each (keys : list string) (body : string -> M heap unit)
  : M heap unit :=
  match keys with
  | [] => ret tt
  | key :: keys' => _ <- body key ;; for_each keys' body
  end.

(** [for (key in o) { body }]: the keys are those the object has when the
    loop starts. *)
Definition for_in (o : loc) (body : string -> M heap unit) : M heap unit :=
  fun h => for_each (own_keys h o) body h.

(** One round of the first loop of [applyToBase]; [&&] does not evaluate its
    right side when the left side is false. *)
Definition delete_round (base data : loc) (key : string) : M heap unit :=
  own <- call_hasOwnProperty base key ;;
  if own then
    theirs <- call_hasOwnProperty data key ;;
    if negb theirs then modify (fun h => delete_property h base key)
    else ret tt
  else ret tt.

(** One round of the second loop. *)
Definition copy_round (base data : loc) (key : string) : M heap unit :=
  theirs <- call_hasOwnProperty data key ;;
  if theirs then modify (fun h => put h base key (get h data key))
  else ret tt.

Definition applyToBase (base data : value) : M heap value :=
  match base, data with
  | object b, object d =>
      _ <- for_in b (delete_round b d) ;;
      _ <- for_in d (copy_round b d) ;;
      ret base
  | _, _ => ret data
  end.






Definition posByKey (self : ReadOnlySynchronizedArray) (key : string) : Z :=
  indexOf (ids self) key.

Definition keyForPos (self : ReadOnlySynchronizedArray) (pos : Z) : value :=
  key_at (ids self) pos.

Definition _handleEvent (self : ReadOnlySynchronizedArray)
    (eventType : string) (recordId data : value) : list call :=
  if eventCallback self then [Call eventType recordId data] else [].

Definition _moveTo (self : ReadOnlySynchronizedArray)
    (id : string) (data prevId : value) : ReadOnlySynchronizedArray :=
  match prevId with
  | null =>
      with_arrays self (unshift id (ids self)) (unshift data (list_ self))
  | _ =>
      let pos := posByKey self id in
      let pos :=
        if (pos =? -1)%Z then Z.of_nat (length (list_ self))
        else (pos + 1)%Z in
      with_arrays self
        (splice pos 0 [id] (ids self))
        (splice pos 0 [data] (list_ self))
  end.

Definition _serverAdd (self : ReadOnlySynchronizedArray)
    (snap : snapshot) (prevId : value)
  : ReadOnlySynchronizedArray * list call :=
  let self := _moveTo self (name snap) (val snap) prevId in
  (self, _handleEvent self "child_added" (str (name snap)) (val snap)).

Definition _serverRemove (self : ReadOnlySynchronizedArray)
    (snap : snapshot) : ReadOnlySynchronizedArray * list call :=
  let pos := posByKey self (name snap) in
  if negb (pos =? -1)%Z then
    let list1 := splice pos 1 [] (list_ self) in
    let ids1 := splice pos 1 [] (ids self) in
    let self := with_arrays self ids1 list1 in
    (self,
     _handleEvent self "child_removed" (str (name snap))
       (at_index (list_ self) pos))
  else (self, []).

(** [_serverChange] returns the calls of the notification callback it made,
    or throws what [applyToBase] threw, before the assignment to
    [this.list[pos]] and before any notification. *)
Definition _serverChange (h : heap) (self : ReadOnlySynchronizedArray)
    (snap : snapshot)
  : heap * ReadOnlySynchronizedArray * result (list call) :=
  let pos := posByKey self (name snap) in
  if negb (pos =? -1)%Z then
    match applyToBase (at_index (list_ self) pos) (val snap) h with
    | (Return v, h) =>
        let self :=
          with_arrays self (ids self) (assign_index (list_ self) pos v) in
        (h, self,
         Return (_handleEvent self "child_changed" (str (name snap))
                   (at_index (list_ self) pos)))
    | (Throw e, h) => (h, self, Throw e)
    end
  else (h, self, Return []).

Definition _serverMove (self : ReadOnlySynchronizedArray)
    (snap : snapshot) (prevId : value)
  : ReadOnlySynchronizedArray * list call :=
  let id := name snap in
  let oldPos := posByKey self id in
  if negb (oldPos =? -1)%Z then
    let data := at_index (list_ self) oldPos in
    let list1 := splice oldPos 1 [] (list_ self) in
    let ids1 := splice oldPos 1 [] (ids self) in
    let self := _moveTo (with_arrays self ids1 list1) id data prevId in
    (self, _handleEvent self "child_moved" (str (name snap)) data)
  else (self, []).

(** [_handleErrors], called with [this] as [bind] fixed it.  Bound to
    [null], [this] is the global object (or [null] in strict mode), which has
    no [_handleEvent]: the call inside the [if] throws.  [console.error] does
    not touch the array. *)
Definition _handleErrors (this : this_arg) (self : ReadOnlySynchronizedArray)
    (key : string) (err : value) : result (list call) :=
  if truthy err then
    match this with
    | this_array => Return (_handleEvent self "error" null (str key))
    | this_null => Throw (TypeError "this._handleEvent is not a function")
    end
  else Return [].

(** *** The mutation methods

    Each runs on the instance and may throw; all five only talk to
    [this.ref].  These are the methods' own statements.  What the listeners
    do when the reference calls them before it returns is added by [step],
    which runs a method together with the events triggered during the
    call. *)

Definition on_ref {A : Type} (m : M MockFirebase.t A)
  : M ReadOnlySynchronizedArray A :=
  fun self => let '(r, fb) := m (ref self) in (r, with_ref self fb).

(** [add] declares the one parameter [data]; [arguments] is the whole
    argument list of the call.  The returned reference is given by its
    path. *)
Definition add (arguments : list value) : M ReadOnlySynchronizedArray string :=
  let data := nth 0 arguments undefined in
  key <- on_ref (MockFirebase.push undefined) ;;
  ref <- on_ref (MockFirebase.child key) ;;
  _ <- (if bool_decide (0 < length arguments)
        then on_ref (MockFirebase.set ref data
                       (Some (Bind_handleErrors this_array key)))
        else ret tt) ;;
  ret ref.

Definition set (key : string) (newValue : value)
  : M ReadOnlySynchronizedArray unit :=
  ref <- on_ref (MockFirebase.child key) ;;
  on_ref (MockFirebase.set ref newValue
            (Some (Bind_handleErrors this_array key))).

Definition update (key : string) (newValue : value)
  : M ReadOnlySynchronizedArray unit :=
  ref <- on_ref (MockFirebase.child key) ;;
  on_ref (MockFirebase.update ref newValue
            (Some (Bind_handleErrors this_array key))).

Definition setPriority (key : string) (newPriority : value)
  : M ReadOnlySynchronizedArray unit :=
  ref <- on_ref (MockFirebase.child key) ;;
  on_ref (MockFirebase.setPriority ref newPriority).

Definition remove (key : string) : M ReadOnlySynchronizedArray unit :=
  ref <- on_ref (MockFirebase.child key) ;;
  on_ref (MockFirebase.remove ref
            (Some (Bind_handleErrors this_null key))).

(** The source reports the outcome [err] of an accepted write:
    [callback && callback(err)]. *)
Definition report (self : ReadOnlySynchronizedArray)
    (w : MockFirebase.write) (err : value) : result (list call) :=
  match MockFirebase.callback_of w with
  | Some cb => _handleErrors (bound_this cb) self (bound_key cb) err
  | None => Return []
  end.

(** *** Construction and the handle *)

Definition _initListeners : M ReadOnlySynchronizedArray unit :=
  _ <- on_ref (MockFirebase.on "child_added" on_serverAdd) ;;
  _ <- on_ref (MockFirebase.on "child_removed" on_serverRemove) ;;
  _ <- on_ref (MockFirebase.on "child_changed" on_serverChange) ;;
  on_ref (MockFirebase.on "child_moved" on_serverMove).

(** The prototype methods [_initList] binds onto the array it hands out. *)
Inductive method :=
  | keyForPos_method
  | posByKey_method
  | add_method
  | remove_method
  | set_method
  | update_method
  | setPriority_method.

#[global] Instance method_eq_dec : EqDecision method.
Proof. solve_decision. Defined.

Definition _initList : list (string * method) :=
  [("$keyFor", keyForPos_method);
   ("$indexOf", posByKey_method);
   ("$add", add_method);
   ("$remove", remove_method);
   ("$set", set_method);
   ("$update", update_method);
   ("$move", setPriority_method)].

(** [new ReadOnlySynchronizedArray(ref, eventCallback)]: the two empty
    arrays and the four subscriptions.  The calls of [_serverAdd] that [on]
    queues for the children the reference already holds are the first added
    events of a run from here, whether the reference makes them on a later
    [flush] or, flushing on its own, before the constructor returns. *)
Definition construct (ref : MockFirebase.t) (eventCallback : bool)
  : result unit * ReadOnlySynchronizedArray :=
  _initListeners
    {| ids := []; list_ := []; ref := ref; eventCallback := eventCallback |}.

(** [list[property]]: the function stored under a property of the handle. *)
Definition handle (property : string) : option method :=
  (list_to_map _initList : gmap string method) !! property.

Definition args_of (m : method) : Type :=
  match m with
  | keyForPos_method => Z
  | posByKey_method => string
  | add_method => list value
  | remove_method => string
  | set_method | update_method | setPriority_method => string * value
  end.

Inductive returned :=
  | returned_value (v : value)
  | returned_ref (path : string).

Definition run_method (m : method)
  : args_of m -> M ReadOnlySynchronizedArray returned :=
  match m with
  | keyForPos_method => fun pos =>
      gets (fun self => returned_value (keyForPos self pos))
  | posByKey_method => fun key =>
      gets (fun self => returned_value (number (posByKey self key)))
  | add_method => fun arguments =>
      r <- add arguments ;; ret (returned_ref r)
  | remove_method => fun key =>
      _ <- remove key ;; ret (returned_value undefined)
  | set_method => fun a =>
      _ <- set a.1 a.2 ;; ret (returned_value undefined)
  | update_method => fun a =>
      _ <- update a.1 a.2 ;; ret (returned_value undefined)
  | setPriority_method => fun a =>
      _ <- setPriority a.1 a.2 ;; ret (returned_value undefined)
  end.

(** [list[property](...)]: calling a property that holds no function
    throws. *)
Definition call_property (property : string) (args : forall m, args_of m)
  : M ReadOnlySynchronizedArray returned :=
  match handle property with
  | Some m => run_method m (args m)
  | None => throw (TypeError ("list." +:+ property +:+ " is not a function"))
  end.

(** *** Remote events *)

Inductive event :=
  | child_added (snap : snapshot) (prevId : value)
  | child_removed (snap : snapshot)
  | child_changed (snap : snapshot)
  | child_moved (snap : snapshot) (prevId : value).

Definition event_name (ev : event) : string :=
  match ev with
  | child_added _ _ => "child_added"
  | child_removed _ => "child_removed"
  | child_changed _ => "child_changed"
  | child_moved _ _ => "child_moved"
  end.

Definition event_snap (ev : event) : snapshot :=
  match ev with
  | child_added s _ | child_removed s | child_changed s | child_moved s _ => s
  end.

(** The second argument a listener is called with: listeners of
    [child_removed] and [child_changed] get the snapshot alone. *)
Definition event_prev (ev : event) : value :=
  match ev with
  | child_added _ p | child_moved _ p => p
  | child_removed _ | child_changed _ => undefined
  end.

(** The object store, the instance, and every call of the notification
    callback so far.  When a listener throws, the exception goes to whoever
    triggered the event; the world is what the listener left behind. *)
Record world := World {
  store : heap;
  array : ReadOnlySynchronizedArray;
  spy : list call
}.

Definition call_listener (fn : listener) (w : world)
    (snap : snapshot) (prevId : value) : world :=
  match fn with
  | on_serverAdd =>
      let '(self, cs) := _serverAdd (array w) snap prevId in
      World (store w) self (spy w ++ cs)
  | on_serverRemove =>
      let '(self, cs) := _serverRemove (array w) snap in
      World (store w) self (spy w ++ cs)
  | on_serverChange =>
      let '(h, self, r) := _serverChange (store w) (array w) snap in
      World h self (spy w ++ match r with Return cs => cs | Throw _ => [] end)
  | on_serverMove =>
      let '(self, cs) := _serverMove (array w) snap prevId in
      World (store w) self (spy w ++ cs)
  end.

(** Whether the listener throws on this call. *)
Definition thrown_by (fn : listener) (w : world) (snap : snapshot) : bool :=
  match fn with
  | on_serverChange =>
      match (_serverChange (store w) (array w) snap).2 with
      | Throw _ => true
      | Return _ => false
      end
  | _ => false
  end.

(** The listeners of a kind called one after the other; a listener that
    throws ends the loop. *)
Fixpoint call_each (fns : list listener) (w : world)
    (snap : snapshot) (prevId : value) : world :=
  match fns with
  | [] => w
  | fn :: fns' =>
      if thrown_by fn w snap then call_listener fn w snap prevId
      else call_each fns' (call_listener fn w snap prevId) snap prevId
  end.

(** [_trigger]: every listener registered for the event's kind is called, in
    registration order. *)
Definition _trigger (w : world) (ev : event) : world :=
  call_each (default [] (MockFirebase._events (ref (array w)) !! event_name ev))
    w (event_snap ev) (event_prev ev).

(** The handler the constructor subscribes for each kind, called directly. *)
Definition apply_event (w : world) (ev : event) : world :=
  match ev with
  | child_added snap prevId => call_listener on_serverAdd w snap prevId
  | child_removed snap => call_listener on_serverRemove w snap undefined
  | child_changed snap => call_listener on_serverChange w snap undefined
  | child_moved snap prevId => call_listener on_serverMove w snap prevId
  end.

Definition run (w : world) (evs : list event) : world :=
  foldl apply_event w evs.

(** [getAsArray(ref, eventCallback)] on a fresh reference, before any
    event. *)
Definition initial (h : heap) (path : string) (counter : nat)
    (eventCallback : bool) : world :=
  World h (construct (MockFirebase.create path counter) eventCallback).2 [].

(** Every [child_added] of the run names a key that is not in [ids] when it
    is applied. *)
Fixpoint fresh_adds (w : world) (evs : list event) : bool :=
  match evs with
  | [] => true
  | ev :: evs' =>
      match ev with
      | child_added snap _ => bool_decide (name snap ∉ ids (array w))
      | _ => true
      end && fresh_adds (apply_event w ev) evs'
  end.

(** The two arrays are parallel. *)
Definition aligned (self : ReadOnlySynchronizedArray) : Prop :=
  length (ids self) = length (list_ self).

(** The store in which no object has a property. *)
Definition empty_heap : heap := fun _ => ∅.

(** ** What the claims read the specification as

    Insertion position of an [added] event as the specification words it:
    after the sibling when it is present, at the end when it is absent, at
    the head for the sentinel. *)
Definition spec_insert_position (ids : list string) (afterKey : value) : Z :=
  match afterKey with
  | null => 0
  | str s =>
      let p := indexOf ids s in
      if (p =? -1)%Z then Z.of_nat (length ids) else (p + 1)%Z
  | _ => Z.of_nat (length ids)
  end.

(** ** Concrete inputs used below *)

(** A fresh array on an empty reference, with a notification callback. *)
Definition fresh_world : world := initial empty_heap "Mock://data" 0 true.
Definition fresh_array : ReadOnlySynchronizedArray := array fresh_world.

(** [a] is added first, then [b] after [a]. *)
Definition ab : list event :=
  [child_added (Snap "a" (number 1)) null;
   child_added (Snap "b" (number 2)) (str "a")].

Definition abc : list event :=
  ab ++ [child_added (Snap "c" (number 3)) (str "b")].

(** The error a rejected write completes with. *)
Definition denied : value := str "PERMISSION_DENIED".

(** A store with the record [{y: 2}] at location 1 and the incoming value
    [{x: 1}] at location 2, and an array holding the record under key [k]. *)
Definition merge_store : heap :=
  <[1%positive := {["y" := number 2]}]>
    (<[2%positive := {["x" := number 1]}]> empty_heap).

Definition merge_array : ReadOnlySynchronizedArray :=
  {| ids := ["k"]; list_ := [object 1%positive];
     ref := MockFirebase.create "Mock://data" 0; eventCallback := true |}.

(** The store of [merge_store] with the incoming value
    [{hasOwnProperty: 1}] at location 3. *)
Definition shadow_store : heap :=
  <[3%positive := {["hasOwnProperty" := number 1]}]> merge_store.

(** What the array is left as once the reference has accepted [w]. *)
Definition accepted (self : ReadOnlySynchronizedArray)
    (w : MockFirebase.write) : ReadOnlySynchronizedArray :=
  with_ref self (MockFirebase.accept w (ref self)).2.

(** The source fails every write it has accepted with [err]: what each
    completion callback does. *)
Definition fail_all (self : ReadOnlySynchronizedArray) (err : value)
  : list (result (list call)) :=
  (fun w => report self w err) <$> MockFirebase.writes (ref self).

(** Arguments for a call of any property: none that matter. *)
Definition no_args (m : method) : args_of m :=
  match m with
  | keyForPos_method => 0%Z
  | posByKey_method => ""
  | add_method => []
  | remove_method => ""
  | set_method | update_method | setPriority_method => ("", undefined)
  end.


Definition triggered_by_setPriority (key : string) (data : value)
  : list event :=
  [child_moved (Snap key data) undefined].

(** What happens to an array over time: the host calls a method of the
    handle, or the source triggers an event.  A call comes with the events
    the source triggers on the listeners while the call runs, that is before
    the reference's method returns into the array's method; the array's
    methods do nothing after that but return. *)
Inductive action :=
  | local_call (m : method) (args : args_of m) (during : list event)
  | remote_event (ev : event).

Definition step (w : world) (a : action) : world :=
  match a with
  | local_call m args during =>
      foldl _trigger
        (World (store w) (run_method m args (array w)).2 (spy w)) during
  | remote_event ev => _trigger w ev
  end.




(** ** Views of the array used by the further properties *)

(** The keys with the values beside them. *)
Definition pairs (self : ReadOnlySynchronizedArray) : list (string * value) :=
  zip (ids self) (list_ self).

(** [list[list.$indexOf(key)]]: what a reader finds under a key. *)
Definition record (self : ReadOnlySynchronizedArray) (key : string) : value :=
  at_index (list_ self) (posByKey self key).

(** The value beside the first occurrence of a key in a list of pairs. *)
Fixpoint assoc (key : string) (ps : list (string * value)) : value :=
  match ps with
  | [] => undefined
  | (k, v) :: ps' => if decide (k = key) then v else assoc key ps'
  end.

Definition is_added (ev : event) : bool :=
  match ev with
  | child_added _ _ => true
  | _ => false
  end.

Definition present (self : ReadOnlySynchronizedArray) (key : string) : bool :=
  bool_decide (key ∈ ids self).



(** [add] called once per argument list, one call after the other: what each
    call returns or throws, and the instance at the end. *)
Fixpoint add_each (calls : list (list value))
    (self : ReadOnlySynchronizedArray)
  : list (result string) * ReadOnlySynchronizedArray :=
  match calls with
  | [] => ([], self)
  | arguments :: calls' =>
      let '(r, self1) := add arguments self in
      let '(rs, self2) := add_each calls' self1 in
      (r :: rs, self2)
  end.

(** * Properties *)

(** ** Arrays: [splice], [indexOf], indexed reads and writes *)

Section ArrayFacts.
Context {A : Type}.
Implicit Types (a b : list A) (x y : A) (pos : Z).

Lemma splice_length_agree {B : Type} pos n (xs : list A) (ys : list B)
    a (b : list B) :
  length xs = length ys -> length a = length b ->
  length (splice pos n xs a) = length (splice pos n ys b).
Proof.
  intros Hxy Hab. unfold splice.
  rewrite !length_app, !length_take, !length_drop, Hxy, Hab. reflexivity.
Qed.

Lemma splice_insert_at pos x a :
  (0 <= pos <= Z.of_nat (length a))%Z ->
  splice pos 0 [x] a = take (Z.to_nat pos) a ++ x :: drop (Z.to_nat pos) a.
Proof.
  intros Hpos. unfold splice.
  destruct (pos <? 0)%Z eqn:Hneg; [lia|].
  replace (Z.min pos (Z.of_nat (length a))) with pos by lia.
  replace (pos + _)%Z with pos by lia. reflexivity.
Qed.

Lemma splice_insert_end x a :
  splice (Z.of_nat (length a)) 0 [x] a = a ++ [x].
Proof.
  rewrite splice_insert_at by lia.
  rewrite Nat2Z.id, firstn_all, drop_all. reflexivity.
Qed.

Lemma splice_delete_at pos a :
  (0 <= pos < Z.of_nat (length a))%Z ->
  splice pos 1 [] a = delete (Z.to_nat pos) a.
Proof.
  intros Hpos. unfold splice.
  destruct (pos <? 0)%Z eqn:Hneg; [lia|].
  replace (Z.min pos (Z.of_nat (length a))) with pos by lia.
  replace (pos + _)%Z with (pos + 1)%Z by lia.
  rewrite delete_take_drop. simpl. do 2 f_equal. lia.
Qed.

End ArrayFacts.

Lemma indexOf_from_absent a x i :
  x ∉ a -> indexOf_from a x i = (-1)%Z.
Proof.
  revert i. induction a as [|y a IH]; intros i Hx; simpl; [done|].
  apply not_elem_of_cons in Hx as [Hne Hx].
  destruct (decide (y = x)); [congruence | by apply IH].
Qed.

Lemma indexOf_from_present a x i :
  x ∈ a ->
  exists k : nat, indexOf_from a x i = (i + Z.of_nat k)%Z /\ a !! k = Some x
    /\ x ∉ take k a.
Proof.
  revert i. induction a as [|y a IH]; intros i Hx; simpl.
  - by apply elem_of_nil in Hx.
  - destruct (decide (y = x)) as [->|Hne].
    + exists 0. split; [lia|]. split; [done|]. simpl. apply not_elem_of_nil.
    + apply elem_of_cons in Hx as [->|Hx]; [done|].
      destruct (IH (i + 1)%Z Hx) as (k & Hk & Hat & Hfirst).
      exists (S k). split; [lia|]. split; [done|].
      simpl. apply not_elem_of_cons. split; [congruence | done].
Qed.

Lemma indexOf_absent a x : x ∉ a -> indexOf a x = (-1)%Z.
Proof. apply indexOf_from_absent. Qed.

Lemma indexOf_present a x :
  x ∈ a ->
  exists k : nat, indexOf a x = Z.of_nat k /\ a !! k = Some x /\ x ∉ take k a.
Proof.
  intros Hx. destruct (indexOf_from_present a x 0 Hx) as (k & Hk & ?).
  exists k. split; [unfold indexOf; lia | done].
Qed.

Lemma indexOf_neg1 a x : indexOf a x = (-1)%Z <-> x ∉ a.
Proof.
  split; [|apply indexOf_absent].
  intros Hneg Hx. destruct (indexOf_present a x Hx) as (k & Hk & _). lia.
Qed.

Lemma indexOf_found a x :
  indexOf a x <> (-1)%Z ->
  exists k : nat, indexOf a x = Z.of_nat k /\ a !! k = Some x /\ x ∉ take k a.
Proof.
  intros Hne. apply indexOf_present.
  destruct (decide (x ∈ a)) as [|Hnin]; [done|].
  by apply indexOf_absent in Hnin.
Qed.

Lemma at_index_of_nat (a : list value) (k : nat) :
  at_index a (Z.of_nat k) = default undefined (a !! k).
Proof.
  unfold at_index. destruct (Z.ltb_spec (Z.of_nat k) 0) as [Hneg|Hneg]; [lia|].
  by rewrite Nat2Z.id.
Qed.

Lemma at_index_delete (a : list value) (k : nat) :
  at_index (delete k a) (Z.of_nat k) = at_index a (Z.of_nat (S k)).
Proof.
  rewrite !at_index_of_nat. f_equal.
  rewrite list_lookup_delete_ge by lia. reflexivity.
Qed.

Lemma assign_index_inside (a : list value) (k : nat) v :
  k < length a -> assign_index a (Z.of_nat k) v = <[k := v]> a.
Proof.
  intros Hk. unfold assign_index. rewrite Nat2Z.id.
  destruct (decide (k < length a)); [done | lia].
Qed.


Section Handlers.
Implicit Types (self : ReadOnlySynchronizedArray) (snap : snapshot).

Lemma posByKey_absent self key :
  key ∉ ids self -> posByKey self key = (-1)%Z.
Proof. apply indexOf_absent. Qed.

Lemma posByKey_found self key :
  posByKey self key <> (-1)%Z ->
  exists k : nat, posByKey self key = Z.of_nat k /\ ids self !! k = Some key
    /\ key ∉ take k (ids self).
Proof. apply indexOf_found. Qed.

Lemma posByKey_present self key :
  key ∈ ids self ->
  exists k : nat, posByKey self key = Z.of_nat k /\ ids self !! k = Some key
    /\ key ∉ take k (ids self).
Proof. apply indexOf_present. Qed.

Lemma _moveTo_null self id data :
  _moveTo self id data null
  = with_arrays self (id :: ids self) (data :: list_ self).
Proof. reflexivity. Qed.

Lemma _moveTo_fresh self id data prevId :
  prevId <> null -> id ∉ ids self -> aligned self ->
  _moveTo self id data prevId
  = with_arrays self (ids self ++ [id]) (list_ self ++ [data]).
Proof.
  intros Hprev Hid Hlen. red in Hlen.
  assert (with_arrays self
            (splice (Z.of_nat (length (list_ self))) 0 [id] (ids self))
            (splice (Z.of_nat (length (list_ self))) 0 [data] (list_ self))
          = with_arrays self (ids self ++ [id]) (list_ self ++ [data])) as Hend.
  { rewrite splice_insert_end, <- Hlen, splice_insert_end. reflexivity. }
  unfold _moveTo. rewrite (posByKey_absent _ _ Hid). simpl.
  by destruct prevId.
Qed.

Lemma _moveTo_aligned self id data prevId :
  aligned self -> aligned (_moveTo self id data prevId).
Proof.
  unfold aligned, _moveTo. intros Hlen.
  destruct prevId; simpl; try (by rewrite Hlen);
    by apply splice_length_agree.
Qed.

Lemma _moveTo_NoDup self id data prevId :
  aligned self -> id ∉ ids self -> NoDup (ids self) ->
  NoDup (ids (_moveTo self id data prevId)).
Proof.
  intros Hlen Hid Hnd.
  destruct (decide (prevId = null)) as [->|Hprev].
  - rewrite _moveTo_null. simpl. by constructor.
  - rewrite _moveTo_fresh by done. simpl.
    apply NoDup_app. split; [done|]. split; [|apply NoDup_singleton].
    intros x Hx Hx'. apply list_elem_of_singleton in Hx'. by subst.
Qed.

Lemma _serverRemove_absent self snap :
  name snap ∉ ids self -> _serverRemove self snap = (self, []).
Proof.
  intros Hid. unfold _serverRemove. by rewrite (posByKey_absent _ _ Hid).
Qed.

Lemma _serverRemove_present self snap (p : nat) :
  aligned self -> posByKey self (name snap) = Z.of_nat p ->
  _serverRemove self snap
  = (with_arrays self (delete p (ids self)) (delete p (list_ self)),
     _handleEvent self "child_removed" (str (name snap))
       (at_index (list_ self) (Z.of_nat (S p)))).
Proof.
  intros Hlen Hpos.
  destruct (posByKey_found self (name snap)) as (k & Hk & Hat & _); [lia|].
  assert (k = p) as -> by lia.
  pose proof (lookup_lt_Some _ _ _ Hat) as Hp.
  unfold _serverRemove. rewrite Hpos.
  destruct (Z.of_nat p =? -1)%Z eqn:Hneg; [lia|]. simpl.
  rewrite !splice_delete_at by (rewrite <- ?Hlen; lia).
  rewrite Nat2Z.id, at_index_delete. reflexivity.
Qed.

End Handlers.

Section MergeInPlace.
Implicit Types (h : heap) (b d l : loc) (key : string).












Lemma call_hasOwnProperty_shadowed h l key :
  is_Some (h l !! "hasOwnProperty") ->
  exists e, call_hasOwnProperty l key h = (Throw (TypeError e), h).
Proof.
  intros [v Hv]. unfold call_hasOwnProperty. rewrite Hv. by eexists.
Qed.










End MergeInPlace.

Section Invariants.
Implicit Types (self : ReadOnlySynchronizedArray) (snap : snapshot) (w : world).

Lemma _serverChange_absent h self snap :
  name snap ∉ ids self -> _serverChange h self snap = (h, self, Return []).
Proof.
  intros Hid. unfold _serverChange. by rewrite (posByKey_absent _ _ Hid).
Qed.

Lemma _serverMove_absent self snap prevId :
  name snap ∉ ids self -> _serverMove self snap prevId = (self, []).
Proof.
  intros Hid. unfold _serverMove. by rewrite (posByKey_absent _ _ Hid).
Qed.

Lemma _serverMove_present self snap prevId (p : nat) :
  aligned self -> posByKey self (name snap) = Z.of_nat p ->
  _serverMove self snap prevId
  = let data := at_index (list_ self) (Z.of_nat p) in
    let self' :=
      _moveTo (with_arrays self (delete p (ids self)) (delete p (list_ self)))
        (name snap) data prevId in
    (self', _handleEvent self' "child_moved" (str (name snap)) data).
Proof.
  intros Hlen Hpos.
  destruct (posByKey_found self (name snap)) as (k & Hk & Hat & _); [lia|].
  assert (k = p) as -> by lia.
  pose proof (lookup_lt_Some _ _ _ Hat) as Hp.
  unfold _serverMove. rewrite Hpos.
  destruct (Z.ltb_spec (Z.of_nat p) 0); [lia|].
  destruct (Z.eqb_spec (Z.of_nat p) (-1)); [lia|]. simpl.
  rewrite !splice_delete_at by (rewrite <- ?Hlen; lia).
  rewrite Nat2Z.id. reflexivity.
Qed.

Lemma NoDup_delete_absent (a : list string) (p : nat) (x : string) :
  NoDup a -> a !! p = Some x -> x ∉ delete p a.
Proof.
  intros Hnd Hat Hin.
  apply list_elem_of_lookup in Hin as [j Hj].
  destruct (decide (j < p)) as [Hlt|Hge].
  - rewrite list_lookup_delete_lt in Hj by done.
    pose proof (NoDup_lookup _ _ _ _ Hnd Hj Hat). lia.
  - rewrite list_lookup_delete_ge in Hj by lia.
    pose proof (NoDup_lookup _ _ _ _ Hnd Hj Hat). lia.
Qed.

Lemma aligned_delete self (p : nat) :
  aligned self ->
  aligned (with_arrays self (delete p (ids self)) (delete p (list_ self))).
Proof.
  unfold aligned. simpl. intros Hlen.
  rewrite !delete_take_drop, !length_app, !length_take, !length_drop.
  by rewrite Hlen.
Qed.

Lemma call_listener_aligned fn w snap prevId :
  aligned (array w) -> aligned (array (call_listener fn w snap prevId)).
Proof.
  intros Hlen. destruct fn; simpl.
  - by apply _moveTo_aligned.
  - destruct (decide (name snap ∈ ids (array w))) as [Hin|Hnin].
    + destruct (posByKey_present _ _ Hin) as (p & Hp & _).
      rewrite (_serverRemove_present _ _ p) by done. simpl.
      by apply aligned_delete.
    + by rewrite _serverRemove_absent.
  - destruct (decide (name snap ∈ ids (array w))) as [Hin|Hnin].
    + destruct (posByKey_present _ _ Hin) as (p & Hp & Hat & _).
      unfold _serverChange. rewrite Hp.
      destruct (Z.eqb_spec (Z.of_nat p) (-1)); [lia|]. simpl.
      destruct (applyToBase _ _ _) as [[v|e] h]; [|done]. simpl.
      unfold aligned. simpl.
      apply lookup_lt_Some in Hat. red in Hlen.
      rewrite assign_index_inside by lia. by rewrite length_insert.
    + by rewrite _serverChange_absent.
  - destruct (decide (name snap ∈ ids (array w))) as [Hin|Hnin].
    + destruct (posByKey_present _ _ Hin) as (p & Hp & _).
      rewrite (_serverMove_present _ _ _ p) by done. simpl.
      by apply _moveTo_aligned, aligned_delete.
    + by rewrite _serverMove_absent.
Qed.

Lemma call_listener_NoDup fn w snap prevId :
  aligned (array w) -> NoDup (ids (array w)) ->
  (fn = on_serverAdd -> name snap ∉ ids (array w)) ->
  NoDup (ids (array (call_listener fn w snap prevId))).
Proof.
  intros Hlen Hnd Hfresh. destruct fn; simpl.
  - apply _moveTo_NoDup; auto.
  - destruct (decide (name snap ∈ ids (array w))) as [Hin|Hnin].
    + destruct (posByKey_present _ _ Hin) as (p & Hp & _).
      rewrite (_serverRemove_present _ _ p) by done. simpl.
      eapply sublist_NoDup; [done | apply sublist_delete].
    + by rewrite _serverRemove_absent.
  - unfold _serverChange.
    destruct (negb _); [|done].
    by destruct (applyToBase _ _ _) as [[v|e] h].
  - destruct (decide (name snap ∈ ids (array w))) as [Hin|Hnin].
    + destruct (posByKey_present _ _ Hin) as (p & Hp & Hat & _).
      rewrite (_serverMove_present _ _ _ p) by done. simpl.
      apply _moveTo_NoDup.
      * by apply aligned_delete.
      * simpl. by apply NoDup_delete_absent.
      * simpl. eapply sublist_NoDup; [done | apply sublist_delete].
    + by rewrite _serverMove_absent.
Qed.

End Invariants.

(** ** Runs of remote events *)

Section Runs.
Implicit Types (w : world) (evs : list event).

Lemma apply_event_aligned w ev :
  aligned (array w) -> aligned (array (apply_event w ev)).
Proof. intros Hlen. destruct ev; by apply call_listener_aligned. Qed.

Lemma run_aligned w evs :
  aligned (array w) -> aligned (array (run w evs)).
Proof.
  revert w. induction evs as [|ev evs IH]; intros w Hlen; [done|].
  apply IH. by apply apply_event_aligned.
Qed.

Lemma run_NoDup w evs :
  aligned (array w) -> NoDup (ids (array w)) -> fresh_adds w evs = true ->
  NoDup (ids (array (run w evs))).
Proof.
  revert w. induction evs as [|ev evs IH]; intros w Hlen Hnd Hfresh; [done|].
  simpl in Hfresh. apply andb_true_iff in Hfresh as [Hev Hrest].
  apply IH; [by apply apply_event_aligned | | done].
  destruct ev; apply call_listener_NoDup; try done.
  intros _. by apply bool_decide_eq_true in Hev.
Qed.

Lemma construct_arrays fb cb :
  ids (construct fb cb).2 = [] /\ list_ (construct fb cb).2 = [].
Proof.
  unfold construct, _initListeners, bind, on_ref, MockFirebase.on. simpl.
  repeat (destruct (_ !! _); simpl); done.
Qed.


(** No handler touches [this.ref]. *)
Lemma call_listener_ref fn w snap prevId :
  ref (array (call_listener fn w snap prevId)) = ref (array w).
Proof.
  destruct fn; simpl.
  - unfold _moveTo. by destruct prevId.
  - unfold _serverRemove. by destruct (negb _).
  - unfold _serverChange. destruct (negb _); [|done].
    by destruct (applyToBase _ _ _) as [[v|e] h].
  - unfold _serverMove. destruct (negb _); [|done].
    simpl. unfold _moveTo. by destruct prevId.
Qed.




End Runs.

Section Events.
Implicit Types (self : ReadOnlySynchronizedArray) (snap : snapshot).

Lemma _serverAdd_null self snap :
  _serverAdd self snap null
  = (with_arrays self (name snap :: ids self) (val snap :: list_ self),
     _handleEvent self "child_added" (str (name snap)) (val snap)).
Proof. reflexivity. Qed.

(** Whatever sibling a [child_added] names, a key that is new to the array
    goes last. *)
Lemma _serverAdd_fresh self snap prevId :
  prevId <> null -> name snap ∉ ids self -> aligned self ->
  _serverAdd self snap prevId
  = (with_arrays self (ids self ++ [name snap]) (list_ self ++ [val snap]),
     _handleEvent self "child_added" (str (name snap)) (val snap)).
Proof.
  intros Hprev Hid Hlen. unfold _serverAdd.
  by rewrite _moveTo_fresh.
Qed.

End Events.

(** ** The mutation methods and the reference *)

Section Methods.
Implicit Types (self : ReadOnlySynchronizedArray) (key : string).

Lemma with_ref_same self : with_ref self (ref self) = self.
Proof. by destruct self. Qed.

Lemma child_nonempty key fb :
  key <> "" -> MockFirebase.child key fb = (Return key, fb).
Proof.
  intros Hkey. unfold MockFirebase.child, truthy.
  by rewrite bool_decide_eq_false_2.
Qed.

Lemma child_empty fb :
  MockFirebase.child "" fb
  = (Throw (Error ("bad child path " +:+ MockFirebase.currentPath fb)), fb).
Proof. reflexivity. Qed.

Lemma set_accepted self key newValue :
  key <> "" ->
  set key newValue self
  = (Return tt,
     accepted self (MockFirebase.set_op key newValue
                      (Some (Bind_handleErrors this_array key)))).
Proof.
  intros Hkey. unfold set, bind, on_ref. rewrite child_nonempty by done.
  simpl. by destruct self.
Qed.

Lemma remove_accepted self key :
  key <> "" ->
  remove key self
  = (Return tt,
     accepted self (MockFirebase.remove_op key
                      (Some (Bind_handleErrors this_null key)))).
Proof.
  intros Hkey. unfold remove, bind, on_ref. rewrite child_nonempty by done.
  simpl. by destruct self.
Qed.

Lemma setPriority_accepted self key newPriority :
  key <> "" ->
  setPriority key newPriority self
  = (Return tt, accepted self (MockFirebase.setPriority_op key newPriority)).
Proof.
  intros Hkey. unfold setPriority, bind, on_ref.
  rewrite child_nonempty by done. simpl. by destruct self.
Qed.

Lemma mock_key_nonempty (n : nat) : "mock" +:+ pretty n <> "".
Proof. done. Qed.

Lemma push_mints fb :
  MockFirebase.push undefined fb
  = (Return ("mock" +:+ pretty (S (MockFirebase.PUSH_COUNTER fb))),
     MockFirebase.Build (MockFirebase.currentPath fb)
       (S (MockFirebase.PUSH_COUNTER fb))
       (MockFirebase._events fb) (MockFirebase.writes fb)).
Proof.
  unfold MockFirebase.push, bind, modify, gets. cbn [fst snd].
  cbn [MockFirebase.PUSH_COUNTER].
  rewrite child_nonempty by apply mock_key_nonempty. reflexivity.
Qed.

(** [add] always writes under the key [push] has just minted; only its first
    argument is read. *)
Lemma add_requests_minted_key self arguments :
  let key := "mock" +:+ pretty (S (MockFirebase.PUSH_COUNTER (ref self))) in
  (add arguments self).1 = Return key
  /\ MockFirebase.writes (ref (add arguments self).2)
     = MockFirebase.writes (ref self)
       ++ match arguments with
          | [] => []
          | data :: _ =>
              [MockFirebase.set_op key data
                 (Some (Bind_handleErrors this_array key))]
          end.
Proof.
  intros key. unfold add, bind, on_ref. rewrite push_mints. fold key.
  cbn [ref with_ref].
  rewrite child_nonempty by apply mock_key_nonempty.
  destruct arguments as [|data rest]; simpl.
  - by rewrite app_nil_r.
  - done.
Qed.

End Methods.

(** Unfolds a method down to the reference's record and splits on every
    test it makes. *)
Ltac run_method_frame :=
  unfold add, set, update, setPriority, remove, bind, on_ref;
  rewrite ?push_mints; cbn [ref with_ref];
  rewrite ?child_nonempty by apply mock_key_nonempty;
  unfold MockFirebase.child, MockFirebase.update, MockFirebase.set,
    MockFirebase.setPriority, MockFirebase.remove, MockFirebase.accept,
    modify, ret, throw;
  repeat (case_match; simplify_eq/=).

Section Frames.
Implicit Types (self : ReadOnlySynchronizedArray) (w : world)
  (fb : MockFirebase.t).

Lemma run_method_events m (args : args_of m) self :
  MockFirebase._events (ref (run_method m args self).2)
  = MockFirebase._events (ref self).
Proof. destruct m; simpl in *; try done; by run_method_frame. Qed.






Lemma run_ref w evs : ref (array (run w evs)) = ref (array w).
Proof.
  revert w. induction evs as [|ev evs IH]; intros w; [done|].
  unfold run in *. cbn [foldl]. rewrite IH.
  destruct ev; apply call_listener_ref.
Qed.




End Frames.

(** * The claims *)

(** C1.  Where the code departs from the claim: after [a] and then [b] have
    been added, [a] is present at position 0, so an added event for [c] naming
    [a] as its sibling should put [c] at position 1.  [_moveTo] looks up the
    position of the new key instead of the sibling's, does not find it, and
    appends: the arrays become [a, b, c] and [c] sits at position 2. *)
Theorem added_after_present_sibling_goes_last :
  let w := run fresh_world ab in
  let w' := apply_event w (child_added (Snap "c" (number 3)) (str "a")) in
  ids (array w) = ["a"; "b"]
  /\ posByKey (array w) "a" = 0%Z
  /\ spec_insert_position (ids (array w)) (str "a") = 1%Z
  /\ ids (array w') = ["a"; "b"; "c"]
  /\ list_ (array w') = [number 1; number 2; number 3]
  /\ posByKey (array w') "c" = 2%Z.
Proof. vm_compute. repeat split. Qed.

(** C2, as stated, fails: two added events for the same key leave the key
    twice in the key sequence. *)
Lemma twice_added_duplicates :
  ~ (length (ids (array (run fresh_world
        [child_added (Snap "a" (number 1)) null;
         child_added (Snap "a" (number 1)) null])))
     = length (list_ (array (run fresh_world
        [child_added (Snap "a" (number 1)) null;
         child_added (Snap "a" (number 1)) null])))
     /\ NoDup (ids (array (run fresh_world
        [child_added (Snap "a" (number 1)) null;
         child_added (Snap "a" (number 1)) null])))).
Proof.
  intros [_ Hnd]. vm_compute in Hnd.
  apply NoDup_cons in Hnd as [Hin _]. apply Hin. constructor.
Qed.

(** C2, amended.  In every state reached from a new array by a sequence of
    remote events, the key sequence and the value sequence have the same
    length; and the key sequence has no duplicates provided every added event
    of the sequence names a key that is absent when it is applied. *)
Theorem reachable_aligned_and_distinct h path counter cb evs :
  let w := run (initial h path counter cb) evs in
  length (ids (array w)) = length (list_ (array w))
  /\ (fresh_adds (initial h path counter cb) evs = true ->
      NoDup (ids (array w))).
Proof.
  destruct (construct_arrays (MockFirebase.create path counter) cb)
    as [Hids Hlist].
  assert (aligned (array (initial h path counter cb))) as Hlen.
  { unfold aligned, initial. simpl. by rewrite Hids, Hlist. }
  split.
  - by apply run_aligned.
  - intros Hfresh. apply run_NoDup; [done | | done].
    unfold initial. simpl. rewrite Hids. constructor.
Qed.

Lemma reachable_aligned_and_distinct_witness :
  fresh_adds fresh_world abc = true
  /\ NoDup (ids (array (run fresh_world abc))).
Proof.
  split; [reflexivity|].
  exact (proj2 (reachable_aligned_and_distinct
                  empty_heap "Mock://data" 0 true abc) eq_refl).
Defined.

(** C3.  Where the code departs from the claim: with [a] (value 1) at position
    0 and [b] (value 2) after it, a removed event for [a] deletes position 0
    from both sequences, but the notification carries the value read at
    position 0 after the deletion, which is [b]'s value 2, not the removed
    value 1. *)
Theorem removed_reports_successor :
  let w := run fresh_world ab in
  let w' := apply_event w (child_removed (Snap "a" null)) in
  at_index (list_ (array w)) (posByKey (array w) "a") = number 1
  /\ ids (array w') = ["b"]
  /\ list_ (array w') = [number 2]
  /\ spy w' = spy w ++ [Call "child_removed" (str "a") (number 2)].
Proof. vm_compute. repeat split. Qed.

(** C4.  Where the code departs from the claim: the completion callback
    [remove] passes is bound to [null], so when the source fails the delete
    the callback throws a TypeError and no error event is delivered;
    [setPriority] passes no callback at all, so a failed reorder is reported
    nowhere.  A failed [set], for comparison, delivers the error event. *)
Theorem delete_and_reorder_failures_unreported :
  fail_all (remove "a" fresh_array).2 denied
  = [Throw (TypeError "this._handleEvent is not a function")]
  /\ MockFirebase.callback_of <$>
       MockFirebase.writes (ref (setPriority "a" (number 100) fresh_array).2)
     = [None]
  /\ fail_all (setPriority "a" (number 100) fresh_array).2 denied
     = [Return []]
  /\ fail_all (set "a" (number 7) fresh_array).2 denied
     = [Return [Call "error" null (str "a")]].
Proof.
  rewrite remove_accepted, setPriority_accepted, set_accepted by done.
  repeat split.
Qed.

(** C5.  Where the code departs from the claim: the handle has no detach
    property ([$off] is absent, calling it throws), no method of the handle
    changes the listeners registered on the reference, and after the failed
    call an added event is still applied to the array. *)
Theorem handle_has_no_detach :
  handle "$off" = None
  /\ (forall args self,
        call_property "$off" args self
        = (Throw (TypeError "list.$off is not a function"), self))
  /\ (forall m (args : args_of m) self,
        MockFirebase._events (ref (run_method m args self).2)
        = MockFirebase._events (ref self))
  /\ ids (array (_trigger
                   (World empty_heap
                      (call_property "$off" no_args fresh_array).2 [])
                   (child_added (Snap "x" (number 1)) null)))
     = ["x"].
Proof.
  split; [reflexivity|]. split; [reflexivity|].
  split; [apply run_method_events | reflexivity].
Qed.

(** C6.  A merge whose partial value is not a structured value throws an
    Error at call time, and leaves the array and its reference exactly as
    they were: no write is accepted.  The Error is the reference's "must be
    an object" one, or its "bad child path" one when the key is empty. *)
Theorem merge_of_scalar_throws self key newValue :
  MockFirebase.isObject newValue = false ->
  update key newValue self
  = (Throw (Error
       (if bool_decide (key = "")
        then "bad child path " +:+ MockFirebase.currentPath (ref self)
        else "First argument must be an object when calling $update")),
     self).
Proof.
  intros Hscalar. unfold update, bind, on_ref.
  case_bool_decide as Hkey.
  - subst key. rewrite child_empty. by rewrite with_ref_same.
  - rewrite child_nonempty by done. cbn [ref with_ref].
    unfold MockFirebase.update. rewrite Hscalar. simpl.
    by destruct self.
Qed.

Lemma merge_of_scalar_throws_witness :
  MockFirebase.isObject (boolean true) = false
  /\ update "foo" (boolean true) fresh_array
     = (Throw (Error "First argument must be an object when calling $update"),
        fresh_array).
Proof.
  split; [reflexivity|].
  exact (merge_of_scalar_throws fresh_array "foo" (boolean true) eq_refl).
Defined.

(** C7.  Where the code departs from the claim: [add] called with a value
    and the explicit key [foobar] returns the minted key [mock1] and requests
    the record under [mock1]; the explicit key is never read. *)
Theorem add_ignores_explicit_key :
  (add [object 1%positive; str "foobar"] fresh_array).1 = Return "mock1"
  /\ MockFirebase.writes
       (ref (add [object 1%positive; str "foobar"] fresh_array).2)
     = [MockFirebase.set_op "mock1" (object 1%positive)
          (Some (Bind_handleErrors this_array "mock1"))].
Proof.
  destruct (add_requests_minted_key fresh_array
              [object 1%positive; str "foobar"]) as [-> ->].
  split; reflexivity.
Qed.

(** C8.  Where the code departs from the claim: the record [{y: 2}] under
    key [k] and the incoming value [{hasOwnProperty: 1}] are both objects, so
    the record should be left with the fields of the incoming value.
    [applyToBase] asks [data.hasOwnProperty('y')], finds the number 1 where
    it expects the inherited method, and throws a TypeError: the record keeps
    its field [y], nothing is assigned to the array and nothing is
    notified. *)
Theorem changed_with_field_hasOwnProperty_throws :
  let snap := Snap "k" (object 3%positive) in
  let '(h', self', outcome) := _serverChange shadow_store merge_array snap in
  posByKey merge_array (name snap) = 0%Z
  /\ isObject (record merge_array (name snap)) && isObject (val snap) = true
  /\ outcome = Throw (TypeError "hasOwnProperty is not a function")
  /\ self' = merge_array
  /\ h' 1%positive = {["y" := number 2]}
  /\ h' 1%positive <> shadow_store 3%positive.
Proof.
  cbv zeta.
  destruct (_serverChange shadow_store merge_array
              (Snap "k" (object 3%positive))) as [[h' self'] outcome] eqn:Hrun.
  vm_compute in Hrun. simplify_eq.
  repeat split.
  intros Heq. apply (f_equal (fun fields => fields !! "y")) in Heq.
  vm_compute in Heq. discriminate Heq.
Qed.



(** C10.  Every call of the notification callback that [_handleErrors] makes
    has event kind [error], [null] in the key position and the record's key
    in the value position. *)
Theorem error_call_shape this self key err calls c :
  _handleErrors this self key err = Return calls ->
  c ∈ calls ->
  c = Call "error" null (str key).
Proof.
  unfold _handleErrors, _handleEvent. intros Hret Hin.
  destruct (truthy err), this, (eventCallback self); simplify_eq;
    solve [by apply elem_of_nil in Hin
          | by apply list_elem_of_singleton in Hin].
Qed.

Lemma error_call_shape_witness :
  _handleErrors this_array fresh_array "a" denied
  = Return [Call "error" null (str "a")]
  /\ Call "error" null (str "a") ∈ [Call "error" null (str "a")]
  /\ Call "error" null (str "a") = Call "error" null (str "a").
Proof.
  split; [reflexivity|]. split; [apply list_elem_of_here|].
  exact (error_call_shape this_array fresh_array "a" denied
           [Call "error" null (str "a")] (Call "error" null (str "a"))
           eq_refl (list_elem_of_here _ _)).
Defined.

(** * Further properties *)

(** ** Keys and values side by side *)

Section Pairs.
Implicit Types (self : ReadOnlySynchronizedArray) (ks : list string)
  (vs : list value) (ps : list (string * value)) (k x : string).

Lemma assoc_app k ps1 ps2 :
  assoc k (ps1 ++ ps2)
  = if decide (k ∈ ps1.*1) then assoc k ps1 else assoc k ps2.
Proof.
  induction ps1 as [|[y v] ps1 IH].
  { simpl. destruct (decide (k ∈ [])) as [Hin|]; [|done].
    by apply elem_of_nil in Hin. }
  rewrite fmap_cons. simpl.
  destruct (decide (y = k)) as [->|Hne].
  - rewrite decide_True by apply list_elem_of_here. done.
  - rewrite IH. destruct (decide (k ∈ ps1.*1)) as [Hin|Hnin].
    + destruct (decide (k ∈ y :: ps1.*1)) as [|Hout]; [done|].
      destruct Hout. by apply list_elem_of_further.
    + destruct (decide (k ∈ y :: ps1.*1)) as [Hin|]; [|done].
      apply elem_of_cons in Hin as [Heq|Hin]; [congruence | done].
Qed.

Lemma assoc_insert_other k x v ps1 ps2 :
  x <> k -> assoc k (ps1 ++ (x, v) :: ps2) = assoc k (ps1 ++ ps2).
Proof.
  intros Hne. rewrite !assoc_app. simpl. by rewrite (decide_False _ _ Hne).
Qed.

Lemma at_index_assoc_from ks vs k (pre : list value) :
  length ks = length vs ->
  at_index (pre ++ vs) (indexOf_from ks k (Z.of_nat (length pre)))
  = assoc k (zip ks vs).
Proof.
  revert vs pre. induction ks as [|y ks IH]; intros [|v vs] pre Hlen;
    simplify_eq/=; [done|].
  destruct (decide (y = k)) as [->|Hne].
  - rewrite at_index_of_nat, lookup_app_r, Nat.sub_diag by lia. done.
  - replace (Z.of_nat (length pre) + 1)%Z
      with (Z.of_nat (length (pre ++ [v])))
      by (rewrite length_app; simpl; lia).
    rewrite <- (IH vs (pre ++ [v])) by done.
    by rewrite <- app_assoc.
Qed.

Lemma record_assoc self k :
  aligned self -> record self k = assoc k (pairs self).
Proof. intros Hlen. by apply (at_index_assoc_from _ _ _ []). Qed.

Lemma zip_insert_at ks vs (q : nat) x v :
  length ks = length vs ->
  zip (take q ks ++ x :: drop q ks) (take q vs ++ v :: drop q vs)
  = take q (zip ks vs) ++ (x, v) :: drop q (zip ks vs).
Proof.
  intros Hlen. rewrite zip_with_app by (rewrite !length_take; lia).
  simpl. by rewrite zip_with_take, zip_with_drop.
Qed.

Lemma zip_delete ks vs (p : nat) :
  length ks = length vs ->
  zip (delete p ks) (delete p vs) = delete p (zip ks vs).
Proof.
  intros Hlen. rewrite !delete_take_drop.
  rewrite zip_with_app by (rewrite !length_take; lia).
  by rewrite zip_with_take, zip_with_drop.
Qed.

(** In an aligned array [_moveTo] puts the key and the value at one and the
    same position. *)
Lemma _moveTo_inserts self id data prevId :
  aligned self ->
  exists q : nat,
    q <= length (ids self)
    /\ (prevId = null -> q = 0)
    /\ _moveTo self id data prevId
       = with_arrays self
           (take q (ids self) ++ id :: drop q (ids self))
           (take q (list_ self) ++ data :: drop q (list_ self)).
Proof.
  intros Hlen. red in Hlen.
  destruct (decide (prevId = null)) as [->|Hprev].
  { exists 0. split; [lia|]. split; [done|]. by rewrite _moveTo_null. }
  set (pos := if (posByKey self id =? -1)%Z
              then Z.of_nat (length (list_ self))
              else (posByKey self id + 1)%Z).
  assert (0 <= pos <= Z.of_nat (length (ids self)))%Z as Hpos.
  { unfold pos. destruct (Z.eqb_spec (posByKey self id) (-1)) as [|Hne];
      [lia|].
    destruct (posByKey_found _ _ Hne) as (j & -> & Hat & _).
    apply lookup_lt_Some in Hat. lia. }
  exists (Z.to_nat pos). split; [lia|]. split; [done|].
  assert (_moveTo self id data prevId
          = with_arrays self (splice pos 0 [id] (ids self))
              (splice pos 0 [data] (list_ self))) as ->
    by (by destruct prevId).
  rewrite !splice_insert_at by lia. done.
Qed.

Lemma pairs_moveTo self id data prevId :
  aligned self ->
  exists q : nat,
    pairs (_moveTo self id data prevId)
    = take q (pairs self) ++ (id, data) :: drop q (pairs self).
Proof.
  intros Hlen. destruct (_moveTo_inserts self id data prevId Hlen)
    as (q & _ & _ & ->).
  exists q. unfold pairs. simpl. by apply zip_insert_at.
Qed.

Lemma pairs_lookup self (p : nat) k :
  aligned self -> ids self !! p = Some k ->
  pairs self !! p = Some (k, at_index (list_ self) (Z.of_nat p)).
Proof.
  intros Hlen Hat. unfold pairs. rewrite lookup_zip_with, Hat. simpl.
  rewrite at_index_of_nat.
  destruct (list_ self !! p) as [v|] eqn:Hv; [done|].
  apply lookup_ge_None in Hv. apply lookup_lt_Some in Hat.
  red in Hlen. lia.
Qed.

End Pairs.

(** ** Further properties of the handlers *)

Section Lookups.
Implicit Types (self : ReadOnlySynchronizedArray) (k key : string).

Lemma indexOf_from_shift (a : list string) k (i : Z) :
  k ∈ a -> indexOf_from a k (i + 1) = (indexOf_from a k i + 1)%Z.
Proof.
  revert i. induction a as [|y a IH]; intros i Hin; simpl.
  { by apply elem_of_nil in Hin. }
  destruct (decide (y = k)); [done|].
  apply elem_of_cons in Hin as [?|Hin]; [congruence|]. by apply IH.
Qed.

Lemma posByKey_NoDup self (i : nat) k :
  NoDup (ids self) -> ids self !! i = Some k -> posByKey self k = Z.of_nat i.
Proof.
  intros Hnd Hat.
  destruct (posByKey_present self k) as (j & -> & Hj & _).
  { by eapply list_elem_of_lookup_2. }
  by rewrite (NoDup_lookup _ _ _ _ Hnd Hj Hat).
Qed.

End Lookups.

(** X1.  [posByKey] answers [-1] exactly for the keys that are not in the
    array, and otherwise a position inside it. *)
Theorem posByKey_range self key :
  (posByKey self key = (-1)%Z <-> key ∉ ids self)
  /\ (posByKey self key = (-1)%Z
      \/ (0 <= posByKey self key < Z.of_nat (length (ids self)))%Z).
Proof.
  split; [apply indexOf_neg1|].
  destruct (decide (key ∈ ids self)) as [Hin|Hnin].
  - right. destruct (posByKey_present _ _ Hin) as (j & -> & Hat & _).
    apply lookup_lt_Some in Hat. lia.
  - left. by apply posByKey_absent.
Qed.

(** X2.  Looking a present key up and reading the key at that position gives
    the key back, and no earlier position holds it. *)
Theorem keyForPos_posByKey self key :
  key ∈ ids self ->
  keyForPos self (posByKey self key) = str key
  /\ forall pos, (0 <= pos < posByKey self key)%Z ->
       keyForPos self pos <> str key.
Proof.
  intros Hin. destruct (posByKey_present _ _ Hin) as (j & -> & Hat & Hfirst).
  unfold keyForPos, key_at. split.
  - destruct (Z.ltb_spec (Z.of_nat j) 0); [lia|]. by rewrite Nat2Z.id, Hat.
  - intros pos Hpos. destruct (Z.ltb_spec pos 0); [lia|].
    destruct (ids self !! Z.to_nat pos) as [k|] eqn:Hk; simpl; [|done].
    intros [= ->]. apply Hfirst. apply list_elem_of_lookup.
    exists (Z.to_nat pos). rewrite lookup_take_lt by lia. done.
Qed.

Lemma keyForPos_posByKey_witness :
  "b" ∈ ids (array (run fresh_world ab))
  /\ keyForPos (array (run fresh_world ab))
       (posByKey (array (run fresh_world ab)) "b") = str "b".
Proof.
  assert ("b" ∈ ids (array (run fresh_world ab))) as Hin.
  { apply list_elem_of_further, list_elem_of_here. }
  split; [exact Hin|].
  exact (proj1 (keyForPos_posByKey (array (run fresh_world ab)) "b" Hin)).
Defined.

(** X3.  When the keys are distinct, reading the key at a position and
    looking that key up gives the position back. *)
Theorem posByKey_keyForPos self pos key :
  NoDup (ids self) ->
  keyForPos self pos = str key ->
  posByKey self key = pos.
Proof.
  intros Hnd. unfold keyForPos, key_at.
  destruct (Z.ltb_spec pos 0); [done|].
  destruct (ids self !! Z.to_nat pos) as [k|] eqn:Hk; simpl; [|done].
  intros [= ->]. rewrite (posByKey_NoDup _ _ _ Hnd Hk). lia.
Qed.

Lemma posByKey_keyForPos_witness :
  NoDup (ids (array (run fresh_world ab)))
  /\ keyForPos (array (run fresh_world ab)) 1 = str "b"
  /\ posByKey (array (run fresh_world ab)) "b" = 1%Z.
Proof.
  assert (NoDup (ids (array (run fresh_world ab)))) as Hnd.
  { apply (NoDup_cons_2 "a" ["b"]).
    - intros Hin. apply list_elem_of_singleton in Hin. discriminate Hin.
    - apply NoDup_singleton. }
  split; [exact Hnd|]. split; [reflexivity|].
  exact (posByKey_keyForPos (array (run fresh_world ab)) 1 "b" Hnd eq_refl).
Defined.

(** X4.  [keyForPos] answers [undefined] exactly for the positions outside
    the array. *)
Theorem keyForPos_outside self pos :
  keyForPos self pos = undefined
  <-> (pos < 0 \/ Z.of_nat (length (ids self)) <= pos)%Z.
Proof.
  unfold keyForPos, key_at. destruct (Z.ltb_spec pos 0) as [Hneg|Hpos].
  { split; [by left | done]. }
  destruct (ids self !! Z.to_nat pos) as [k|] eqn:Hk; simpl.
  - apply lookup_lt_Some in Hk. split; [done | lia].
  - apply lookup_ge_None in Hk. split; [lia | done].
Qed.

Section PairsOfEvents.
Implicit Types (self : ReadOnlySynchronizedArray) (snap : snapshot)
  (w : world) (k : string).

Lemma insert_at_Permutation {A : Type} (q : nat) (x : A) (l : list A) :
  take q l ++ x :: drop q l ≡ₚ x :: l.
Proof. by rewrite <- Permutation_middle, take_drop. Qed.

Lemma pairs_delete self (p : nat) :
  aligned self ->
  pairs (with_arrays self (delete p (ids self)) (delete p (list_ self)))
  = delete p (pairs self).
Proof. intros Hlen. unfold pairs. simpl. by apply zip_delete. Qed.

Lemma pairs_assign self (p : nat) k v :
  aligned self -> ids self !! p = Some k ->
  pairs (with_arrays self (ids self)
           (assign_index (list_ self) (Z.of_nat p) v))
  = take p (pairs self) ++ (k, v) :: drop (S p) (pairs self).
Proof.
  intros Hlen Hat. red in Hlen.
  pose proof (lookup_lt_Some _ _ _ Hat) as Hp.
  rewrite assign_index_inside by lia.
  unfold pairs. simpl.
  rewrite insert_take_drop by lia.
  rewrite <- (take_drop_middle (ids self) p k) at 1 by done.
  rewrite zip_with_app by (rewrite !length_take; lia).
  simpl. by rewrite zip_with_take, zip_with_drop.
Qed.

Lemma _serverAdd_pairs self snap prevId :
  aligned self ->
  exists q : nat,
    pairs (_serverAdd self snap prevId).1
    = take q (pairs self) ++ (name snap, val snap) :: drop q (pairs self).
Proof. intros Hlen. by apply pairs_moveTo. Qed.

Lemma _serverRemove_pairs self snap (p : nat) :
  aligned self -> posByKey self (name snap) = Z.of_nat p ->
  pairs (_serverRemove self snap).1 = delete p (pairs self).
Proof.
  intros Hlen Hpos. rewrite (_serverRemove_present _ _ p) by done.
  by apply pairs_delete.
Qed.

Lemma _serverMove_pairs self snap prevId (p : nat) :
  aligned self -> posByKey self (name snap) = Z.of_nat p ->
  exists q : nat,
    pairs (_serverMove self snap prevId).1
    = take q (delete p (pairs self))
      ++ (name snap, at_index (list_ self) (Z.of_nat p))
      :: drop q (delete p (pairs self)).
Proof.
  intros Hlen Hpos. rewrite (_serverMove_present _ _ _ p) by done.
  cbn [fst].
  destruct (pairs_moveTo
              (with_arrays self (delete p (ids self)) (delete p (list_ self)))
              (name snap) (at_index (list_ self) (Z.of_nat p)) prevId)
    as (q & Hq); [by apply aligned_delete|].
  exists q. by rewrite Hq, pairs_delete.
Qed.

Lemma pairs_split self (p : nat) k :
  aligned self -> ids self !! p = Some k ->
  pairs self
  = take p (pairs self) ++ (k, at_index (list_ self) (Z.of_nat p))
    :: drop (S p) (pairs self).
Proof.
  intros Hlen Hat. symmetry. apply take_drop_middle.
  by apply pairs_lookup.
Qed.

Lemma _serverChange_pairs h self snap (p : nat) :
  aligned self -> posByKey self (name snap) = Z.of_nat p ->
  exists v,
    pairs (_serverChange h self snap).1.2
    = take p (pairs self) ++ (name snap, v) :: drop (S p) (pairs self).
Proof.
  intros Hlen Hpos.
  destruct (posByKey_found self (name snap)) as (j & Hj & Hat & _); [lia|].
  assert (j = p) as -> by lia.
  unfold _serverChange. rewrite Hpos.
  destruct (Z.eqb_spec (Z.of_nat p) (-1)); [lia|]. simpl.
  destruct (applyToBase _ _ _) as [[v|e] h']; simpl.
  - exists v. by apply pairs_assign.
  - eexists. by apply pairs_split.
Qed.

End PairsOfEvents.

(** X5.  The handlers keep keys and values paired.  In an array whose two
    sequences have the same length, an added event adds exactly the pair of
    its key and value, a moved event only permutes the pairs, a removed event
    for a present key takes away one pair of that key (and for an absent key
    changes nothing), and a changed event leaves the keys as they are. *)
Theorem events_keep_pairs w ev :
  aligned (array w) ->
  match ev with
  | child_added snap _ =>
      pairs (array (apply_event w ev))
      ≡ₚ (name snap, val snap) :: pairs (array w)
  | child_removed snap =>
      if present (array w) (name snap)
      then exists v,
        pairs (array w) ≡ₚ (name snap, v) :: pairs (array (apply_event w ev))
      else array (apply_event w ev) = array w
  | child_changed snap => ids (array (apply_event w ev)) = ids (array w)
  | child_moved snap _ =>
      pairs (array (apply_event w ev)) ≡ₚ pairs (array w)
  end.
Proof.
  intros Hlen. destruct ev as [snap prevId|snap|snap|snap prevId]; simpl.
  - destruct (_serverAdd_pairs (array w) snap prevId Hlen) as (q & Hq).
    unfold _serverAdd in *. simpl in *. rewrite Hq.
    apply insert_at_Permutation.
  - unfold present. case_bool_decide as Hin.
    + destruct (posByKey_present _ _ Hin) as (p & Hp & Hat & _).
      pose proof (_serverRemove_pairs (array w) snap p Hlen Hp) as Hdel.
      destruct (_serverRemove (array w) snap) as [self' cs]. simpl in *.
      eexists. rewrite Hdel. apply delete_Permutation.
      by apply pairs_lookup.
    + by rewrite _serverRemove_absent.
  - unfold _serverChange. destruct (negb _); [|done].
    by destruct (applyToBase _ _ _) as [[v|e] h].
  - destruct (decide (name snap ∈ ids (array w))) as [Hin|Hnin].
    + destruct (posByKey_present _ _ Hin) as (p & Hp & Hat & _).
      destruct (_serverMove_pairs (array w) snap prevId p Hlen Hp)
        as (q & Hq).
      destruct (_serverMove (array w) snap prevId) as [self' cs].
      simpl in *. rewrite Hq, insert_at_Permutation.
      symmetry. apply delete_Permutation. by apply pairs_lookup.
    + by rewrite _serverMove_absent.
Qed.

Lemma events_keep_pairs_witness :
  aligned (array (run fresh_world ab))
  /\ pairs (array (apply_event (run fresh_world ab)
                     (child_moved (Snap "a" (number 1)) (str "b"))))
     ≡ₚ pairs (array (run fresh_world ab)).
Proof.
  assert (aligned (array (run fresh_world ab))) as Hlen by reflexivity.
  split; [exact Hlen|].
  exact (events_keep_pairs (run fresh_world ab)
           (child_moved (Snap "a" (number 1)) (str "b")) Hlen).
Defined.

(** X6.  An event about one key never changes what a reader finds under
    another key: in an array whose two sequences have the same length,
    [list[$indexOf(k)]] is the same value (for an object, the same object)
    before and after any event whose key is not [k]. *)
Theorem other_records_kept w ev k :
  aligned (array w) ->
  name (event_snap ev) <> k ->
  record (array (apply_event w ev)) k = record (array w) k.
Proof.
  intros Hlen Hne.
  rewrite !record_assoc by (done || by apply apply_event_aligned).
  destruct ev as [snap prevId|snap|snap|snap prevId]; simpl in *.
  - destruct (_serverAdd_pairs (array w) snap prevId Hlen) as (q & Hq).
    unfold _serverAdd in *. simpl in *.
    by rewrite Hq, assoc_insert_other, take_drop.
  - destruct (decide (name snap ∈ ids (array w))) as [Hin|Hnin].
    + destruct (posByKey_present _ _ Hin) as (p & Hp & Hat & _).
      pose proof (_serverRemove_pairs (array w) snap p Hlen Hp) as Hdel.
      destruct (_serverRemove (array w) snap) as [self' cs]. simpl in *.
      rewrite Hdel, delete_take_drop.
      rewrite <- (assoc_insert_other k (name snap)
                    (at_index (list_ (array w)) (Z.of_nat p))) by done.
      by rewrite <- pairs_split.
    + by rewrite _serverRemove_absent.
  - destruct (decide (name snap ∈ ids (array w))) as [Hin|Hnin].
    + destruct (posByKey_present _ _ Hin) as (p & Hp & Hat & _).
      destruct (_serverChange_pairs (store w) (array w) snap p Hlen Hp)
        as (v & Hv).
      destruct (_serverChange (store w) (array w) snap) as [[h' self'] cs].
      simpl in *.
      rewrite Hv, assoc_insert_other by done.
      rewrite <- (assoc_insert_other k (name snap)
                    (at_index (list_ (array w)) (Z.of_nat p))) by done.
      by rewrite <- pairs_split.
    + by rewrite _serverChange_absent.
  - destruct (decide (name snap ∈ ids (array w))) as [Hin|Hnin].
    + destruct (posByKey_present _ _ Hin) as (p & Hp & Hat & _).
      destruct (_serverMove_pairs (array w) snap prevId p Hlen Hp)
        as (q & Hq).
      destruct (_serverMove (array w) snap prevId) as [self' cs].
      simpl in *.
      rewrite Hq, assoc_insert_other, take_drop, delete_take_drop by done.
      rewrite <- (assoc_insert_other k (name snap)
                    (at_index (list_ (array w)) (Z.of_nat p))) by done.
      by rewrite <- pairs_split.
    + by rewrite _serverMove_absent.
Qed.

Lemma other_records_kept_witness :
  aligned (array (run fresh_world ab))
  /\ "a" <> "b"
  /\ record (array (apply_event (run fresh_world ab)
                      (child_removed (Snap "a" null)))) "b"
     = record (array (run fresh_world ab)) "b".
Proof.
  assert (aligned (array (run fresh_world ab))) as Hlen by reflexivity.
  assert ("a" <> "b") as Hne by discriminate.
  split; [exact Hlen|]. split; [exact Hne|].
  exact (other_records_kept (run fresh_world ab)
           (child_removed (Snap "a" null)) "b" Hlen Hne).
Defined.

Lemma _moveTo_callback self id data prevId :
  eventCallback (_moveTo self id data prevId) = eventCallback self.
Proof. unfold _moveTo. by destruct prevId. Qed.

(** X7.  A moved event for a present key, in an aligned array of distinct
    keys, takes the record along: the key holds the same value afterwards,
    the notification carries that value, the keys are the same up to order,
    and with the head sentinel the key ends up at position 0. *)
Theorem moved_takes_record_along self snap prevId :
  aligned self -> NoDup (ids self) -> name snap ∈ ids self ->
  record (_serverMove self snap prevId).1 (name snap)
  = record self (name snap)
  /\ (_serverMove self snap prevId).2
     = _handleEvent self "child_moved" (str (name snap))
         (record self (name snap))
  /\ ids (_serverMove self snap prevId).1 ≡ₚ ids self
  /\ (prevId = null ->
      posByKey (_serverMove self snap prevId).1 (name snap) = 0%Z).
Proof.
  intros Hlen Hnd Hin.
  destruct (posByKey_present _ _ Hin) as (p & Hp & Hat & _).
  assert (aligned (_serverMove self snap prevId).1) as Hlen'.
  { pose proof (call_listener_aligned on_serverMove
                  (World empty_heap self []) snap prevId Hlen) as H.
    simpl in H. by destruct (_serverMove self snap prevId). }
  pose proof (NoDup_delete_absent _ _ _ Hnd Hat) as Hgone.
  split; [|split; [|split]].
  - rewrite record_assoc by done.
    destruct (_serverMove_pairs self snap prevId p Hlen Hp) as (q & ->).
    rewrite assoc_app, decide_False.
    + simpl. rewrite decide_True by done. unfold record. by rewrite Hp.
    + intros Hq. apply Hgone.
      assert (name snap ∈ (delete p (pairs self)).*1) as Hq'.
      { rewrite <- (take_drop q (delete p (pairs self))), fmap_app.
        apply elem_of_app. by left. }
      rewrite <- pairs_delete in Hq' by done. unfold pairs in Hq'.
      simpl in Hq'. rewrite fst_zip in Hq'; [done|].
      pose proof (aligned_delete self p Hlen) as Hd. red in Hd.
      simpl in Hd. lia.
  - rewrite (_serverMove_present _ _ _ p) by done. simpl.
    unfold _handleEvent, record. by rewrite _moveTo_callback, Hp.
  - rewrite (_serverMove_present _ _ _ p) by done. cbn [fst].
    destruct (_moveTo_inserts
                (with_arrays self (delete p (ids self))
                   (delete p (list_ self)))
                (name snap) (at_index (list_ self) (Z.of_nat p)) prevId)
      as (q & _ & _ & ->); [by apply aligned_delete|].
    simpl. rewrite insert_at_Permutation.
    symmetry. by apply delete_Permutation.
  - intros ->. rewrite (_serverMove_present _ _ _ p) by done. cbn [fst].
    rewrite _moveTo_null. unfold posByKey, indexOf. simpl.
    by rewrite decide_True.
Qed.

Lemma moved_takes_record_along_witness :
  aligned (array (run fresh_world ab))
  /\ NoDup (ids (array (run fresh_world ab)))
  /\ "a" ∈ ids (array (run fresh_world ab))
  /\ record (_serverMove (array (run fresh_world ab))
               (Snap "a" null) (str "b")).1 "a" = number 1.
Proof.
  assert (aligned (array (run fresh_world ab))) as Hlen by reflexivity.
  assert (NoDup (ids (array (run fresh_world ab)))) as Hnd.
  { apply (NoDup_cons_2 "a" ["b"]).
    - intros Hin. apply list_elem_of_singleton in Hin. discriminate Hin.
    - apply NoDup_singleton. }
  assert ("a" ∈ ids (array (run fresh_world ab))) as Hin
    by apply list_elem_of_here.
  split; [exact Hlen|]. split; [exact Hnd|]. split; [exact Hin|].
  exact (proj1 (moved_takes_record_along (array (run fresh_world ab))
                  (Snap "a" null) (str "b") Hlen Hnd Hin)).
Defined.

(** X8.  An added event with the head sentinel puts the record first: its key
    is found at position 0 with its value, every key that was present is
    found one position later, and every other key holds the value it held. *)
Theorem added_at_head self snap k :
  posByKey (_serverAdd self snap null).1 (name snap) = 0%Z
  /\ record (_serverAdd self snap null).1 (name snap) = val snap
  /\ (k <> name snap ->
      record (_serverAdd self snap null).1 k = record self k
      /\ (k ∈ ids self ->
          posByKey (_serverAdd self snap null).1 k
          = (posByKey self k + 1)%Z)).
Proof.
  rewrite _serverAdd_null. cbn [fst].
  unfold record, posByKey, indexOf. simpl.
  rewrite decide_True by done. split; [done|]. split; [done|].
  intros Hne. rewrite decide_False by done.
  destruct (decide (k ∈ ids self)) as [Hin|Hnin].
  - rewrite (indexOf_from_shift _ _ 0 Hin). split; [|done].
    destruct (indexOf_present _ _ Hin) as (j & Hj & _).
    unfold indexOf in Hj. rewrite Hj.
    replace (Z.of_nat j + 1)%Z with (Z.of_nat (S j)) by lia.
    by rewrite !at_index_of_nat.
  - rewrite !indexOf_from_absent by done. split; [done|].
    intros Hin. done.
Qed.

Lemma added_at_head_witness :
  "b" <> name (Snap "z" (number 26))
  /\ "b" ∈ ids (array (run fresh_world ab))
  /\ posByKey (_serverAdd (array (run fresh_world ab))
                 (Snap "z" (number 26)) null).1 "b" = 2%Z.
Proof.
  assert ("b" <> name (Snap "z" (number 26))) as Hne by discriminate.
  assert ("b" ∈ ids (array (run fresh_world ab))) as Hin.
  { apply list_elem_of_further, list_elem_of_here. }
  split; [exact Hne|]. split; [exact Hin|].
  exact (proj2 (proj2 (proj2 (added_at_head (array (run fresh_world ab))
                                (Snap "z" (number 26)) "b")) Hne) Hin).
Defined.

(** X9.  After a removed event, in an aligned array of distinct keys, the key
    is no longer found, the same event applied again changes nothing and
    notifies nobody, and the array is shorter by one exactly when the key was
    present. *)
Theorem removed_key_is_gone self snap :
  aligned self -> NoDup (ids self) ->
  posByKey (_serverRemove self snap).1 (name snap) = (-1)%Z
  /\ _serverRemove (_serverRemove self snap).1 snap
     = ((_serverRemove self snap).1, [])
  /\ length (ids (_serverRemove self snap).1)
     + (if present self (name snap) then 1 else 0)
     = length (ids self).
Proof.
  intros Hlen Hnd. unfold present.
  assert (name snap ∉ ids (_serverRemove self snap).1) as Hgone.
  { destruct (decide (name snap ∈ ids self)) as [Hin|Hnin].
    - destruct (posByKey_present _ _ Hin) as (p & Hp & Hat & _).
      rewrite (_serverRemove_present _ _ p) by done. simpl.
      by apply NoDup_delete_absent.
    - by rewrite _serverRemove_absent. }
  split; [by apply posByKey_absent|].
  split; [by apply _serverRemove_absent|].
  case_bool_decide as Hin.
  - destruct (posByKey_present _ _ Hin) as (p & Hp & Hat & _).
    rewrite (_serverRemove_present _ _ p) by done. simpl.
    rewrite length_delete by (by eexists). apply lookup_lt_Some in Hat. lia.
  - rewrite _serverRemove_absent by done. simpl. lia.
Qed.

Lemma removed_key_is_gone_witness :
  aligned (array (run fresh_world ab))
  /\ NoDup (ids (array (run fresh_world ab)))
  /\ posByKey (_serverRemove (array (run fresh_world ab))
                 (Snap "a" null)).1 "a" = (-1)%Z.
Proof.
  assert (aligned (array (run fresh_world ab))) as Hlen by reflexivity.
  assert (NoDup (ids (array (run fresh_world ab)))) as Hnd.
  { apply (NoDup_cons_2 "a" ["b"]).
    - intros Hin. apply list_elem_of_singleton in Hin. discriminate Hin.
    - apply NoDup_singleton. }
  split; [exact Hlen|]. split; [exact Hnd|].
  exact (proj1 (removed_key_is_gone (array (run fresh_world ab))
                  (Snap "a" null) Hlen Hnd)).
Defined.

(** X10.  A removed, changed or moved event for a key that is not in the
    array changes nothing at all: store, sequences and notifications are as
    before. *)
Theorem absent_key_is_ignored w ev :
  is_added ev = false ->
  name (event_snap ev) ∉ ids (array w) ->
  apply_event w ev = w.
Proof.
  intros Hkind Hnin. destruct w as [h self sp].
  destruct ev as [snap prevId|snap|snap|snap prevId]; simpl in *;
    [done| | |].
  - rewrite _serverRemove_absent by done. by rewrite app_nil_r.
  - rewrite _serverChange_absent by done. by rewrite app_nil_r.
  - rewrite _serverMove_absent by done. by rewrite app_nil_r.
Qed.

Lemma absent_key_is_ignored_witness :
  is_added (child_moved (Snap "zz" null) null) = false
  /\ (name (event_snap (child_moved (Snap "zz" null) null))
      ∉ ids (array (run fresh_world ab)))
  /\ apply_event (run fresh_world ab) (child_moved (Snap "zz" null) null)
     = run fresh_world ab.
Proof.
  assert (name (event_snap (child_moved (Snap "zz" null) null))
          ∉ ids (array (run fresh_world ab))) as Hnin.
  { apply (proj1 (indexOf_neg1 ["a"; "b"] "zz")). reflexivity. }
  split; [reflexivity|]. split; [exact Hnin|].
  exact (absent_key_is_ignored (run fresh_world ab)
           (child_moved (Snap "zz" null) null) eq_refl Hnin).
Defined.


Section Observation.
Implicit Types (self : ReadOnlySynchronizedArray) (w : world).

Lemma call_each_ref fns w snap prevId :
  ref (array (call_each fns w snap prevId)) = ref (array w).
Proof.
  revert w. induction fns as [|fn fns IH]; intros w; [done|].
  cbn [call_each]. destruct (thrown_by fn w snap).
  - apply call_listener_ref.
  - by rewrite IH, call_listener_ref.
Qed.

Lemma _trigger_ref w ev : ref (array (_trigger w ev)) = ref (array w).
Proof. unfold _trigger. apply call_each_ref. Qed.

Lemma triggers_ref w evs : ref (array (foldl _trigger w evs)) = ref (array w).
Proof.
  revert w. induction evs as [|ev evs IH]; intros w; [done|].
  cbn [foldl]. by rewrite IH, _trigger_ref.
Qed.

End Observation.

(** X13.  Applying remote events never writes to the source: however many
    events are triggered, and whatever listeners are registered, the
    reference holds the same accepted writes, the same key counter and the
    same listeners afterwards. *)
Theorem events_never_write w evs :
  ref (array (foldl _trigger w evs)) = ref (array w).
Proof.
  revert w. induction evs as [|ev evs IH]; intros w; [done|].
  simpl. by rewrite IH, _trigger_ref.
Qed.

(** X14.  When the source completes a write without an error, nothing is
    notified and nothing is thrown, whichever method issued the write. *)
Theorem success_is_silent self w err :
  truthy err = false -> report self w err = Return [].
Proof.
  intros Hok. unfold report, _handleErrors. rewrite Hok.
  by destruct (MockFirebase.callback_of w).
Qed.

Lemma success_is_silent_witness :
  truthy null = false
  /\ report fresh_array
       (MockFirebase.remove_op "a" (Some (Bind_handleErrors this_null "a")))
       null
     = Return [].
Proof.
  split; [reflexivity|].
  exact (success_is_silent fresh_array
           (MockFirebase.remove_op "a"
              (Some (Bind_handleErrors this_null "a")))
           null eq_refl).
Defined.

Section Writes.
Implicit Types (self : ReadOnlySynchronizedArray) (w : world).

Lemma add_counter self arguments :
  MockFirebase.PUSH_COUNTER (ref (add arguments self).2)
  = S (MockFirebase.PUSH_COUNTER (ref self)).
Proof.
  unfold add, bind, on_ref. rewrite push_mints. cbn [ref with_ref].
  rewrite child_nonempty by apply mock_key_nonempty.
  by destruct (bool_decide _).
Qed.

Lemma add_each_keys calls self :
  (add_each calls self).1
  = (fun i => Return ("mock" +:+ pretty (MockFirebase.PUSH_COUNTER (ref self)
                                         + S i)))
    <$> seq 0 (length calls).
Proof.
  revert self. induction calls as [|arguments calls IH]; intros self; [done|].
  simpl. pose proof (add_requests_minted_key self arguments) as [Hkey _].
  pose proof (add_counter self arguments) as Hcount.
  destruct (add arguments self) as [r self1]. simpl in *.
  specialize (IH self1). destruct (add_each calls self1) as [rs self2].
  simpl in *. subst r rs. rewrite Hcount. f_equal.
  - by rewrite Nat.add_1_r.
  - rewrite <- fmap_S_seq, <- list_fmap_compose. apply list_fmap_ext.
    intros _ i _. simpl. do 3 f_equal. lia.
Qed.

Lemma run_method_grows m (args : args_of m) self :
  MockFirebase.writes (ref self)
    `prefix_of` MockFirebase.writes (ref (run_method m args self).2)
  /\ MockFirebase.PUSH_COUNTER (ref self)
     <= MockFirebase.PUSH_COUNTER (ref (run_method m args self).2).
Proof.
  destruct m; simpl in *; try done; run_method_frame;
    (split; [done || by apply prefix_app_r | lia]).
Qed.

End Writes.

(** X15.  The keys minted by successive [add] calls never repeat: every call
    returns a key, whatever its arguments, and the keys returned are pairwise
    different. *)
Theorem minted_keys_never_repeat calls self :
  exists keys,
    (add_each calls self).1 = Return <$> keys
    /\ length keys = length calls
    /\ NoDup keys.
Proof.
  exists ((fun i => "mock" +:+ pretty (MockFirebase.PUSH_COUNTER (ref self)
                                      + S i))
          <$> seq 0 (length calls)).
  split; [|split].
  - rewrite add_each_keys, <- list_fmap_compose. done.
  - by rewrite length_fmap, length_seq.
  - apply NoDup_fmap_2; [|apply NoDup_seq].
    intros i j Heq. simplify_eq/=. lia.
Qed.

(** X16.  The array never takes back or reorders a write: however method
    calls and remote events interleave, the writes the reference had accepted
    before are still there, in the same order, in front of the later ones,
    and the key counter has not gone down. *)
Theorem writes_only_grow w actions :
  MockFirebase.writes (ref (array w))
    `prefix_of` MockFirebase.writes (ref (array (foldl step w actions)))
  /\ MockFirebase.PUSH_COUNTER (ref (array w))
     <= MockFirebase.PUSH_COUNTER (ref (array (foldl step w actions))).
Proof.
  revert w. induction actions as [|a actions IH]; intros w; [done|].
  cbn [foldl]. destruct (IH (step w a)) as [Hpre Hle].
  assert (MockFirebase.writes (ref (array w))
            `prefix_of` MockFirebase.writes (ref (array (step w a)))
          /\ MockFirebase.PUSH_COUNTER (ref (array w))
             <= MockFirebase.PUSH_COUNTER (ref (array (step w a))))
    as [Hpre1 Hle1].
  { destruct a as [m args during|ev]; cbn [step].
    - rewrite triggers_ref. cbn [array]. apply run_method_grows.
    - by rewrite _trigger_ref. }
  split; [by etrans | lia].
Qed.

(** X17.  With the empty key, [set], [update], [setPriority] and [remove]
    all throw the reference's "bad child path" Error and leave the array and
    the reference exactly as they were. *)
Theorem empty_key_is_rejected self v :
  let thrown :=
    (Throw (Error ("bad child path "
                   +:+ MockFirebase.currentPath (ref self))) : result unit,
     self) in
  set "" v self = thrown
  /\ update "" v self = thrown
  /\ setPriority "" v self = thrown
  /\ remove "" self = thrown.
Proof.
  unfold set, update, setPriority, remove, bind, on_ref.
  rewrite child_empty, with_ref_same. done.
Qed.

(** X18.  Subscribing an array on a reference that knows the four child
    event kinds returns without throwing and registers exactly one listener
    per kind, behind the listeners that were already there; the listeners of
    every other kind, the accepted writes and the key counter of the
    reference are untouched.  The replay of the children the reference
    already holds, which [on] queues for [child_added], is a run of added
    events after this and is not part of the statement. *)
Theorem construct_subscribes fb cb la lr lc lm :
  MockFirebase._events fb !! "child_added" = Some la ->
  MockFirebase._events fb !! "child_removed" = Some lr ->
  MockFirebase._events fb !! "child_changed" = Some lc ->
  MockFirebase._events fb !! "child_moved" = Some lm ->
  (construct fb cb).1 = Return tt
  /\ eventCallback (construct fb cb).2 = cb
  /\ MockFirebase._events (ref (construct fb cb).2)
     = <["child_moved" := lm ++ [on_serverMove]]>
         (<["child_changed" := lc ++ [on_serverChange]]>
            (<["child_removed" := lr ++ [on_serverRemove]]>
               (<["child_added" := la ++ [on_serverAdd]]>
                  (MockFirebase._events fb))))
  /\ MockFirebase.writes (ref (construct fb cb).2) = MockFirebase.writes fb
  /\ MockFirebase.PUSH_COUNTER (ref (construct fb cb).2)
     = MockFirebase.PUSH_COUNTER fb.
Proof.
  intros Ha Hr Hc Hm.
  unfold construct, _initListeners, bind, on_ref, MockFirebase.on.
  cbn [ref with_ref]. rewrite Ha. cbn [ref with_ref MockFirebase._events].
  rewrite lookup_insert_ne, Hr by done.
  cbn [ref with_ref MockFirebase._events].
  rewrite !lookup_insert_ne, Hc by done.
  cbn [ref with_ref MockFirebase._events].
  rewrite !lookup_insert_ne, Hm by done.
  done.
Qed.

Lemma construct_subscribes_witness :
  MockFirebase._events (MockFirebase.create "Mock://data" 0)
    !! "child_added" = Some []
  /\ MockFirebase._events (ref fresh_array) !! "child_added"
     = Some [on_serverAdd].
Proof.
  split; [reflexivity|].
  pose proof (construct_subscribes (MockFirebase.create "Mock://data" 0)
                true [] [] [] [] eq_refl eq_refl eq_refl eq_refl)
    as (_ & _ & Hev & _).
  unfold fresh_array, fresh_world, initial. cbn [array].
  rewrite Hev. reflexivity.
Defined.




